(** * nutils.solver: deferred integrals and the nonlinear solver framework

    A shallow embedding of [nutils/solver.py].  The module's collaborators
    (the symbolic array graph of [nutils.function], the quadrature of the
    domain, the matrix backend and numpy's floating point numbers) are
    taken as interfaces; the code of [solver.py] itself is translated
    function by function on top of them. *)

From Stdlib Require Import ZArith QArith Qcanon.
From stdpp Require Import base option list strings pretty gmap.

Set Default Proof Using "Type".
Set Warnings "-register-all".
Local Open Scope list_scope.

(** ** Exceptions and results *)

Inductive exn : Type :=
| AssertionError (msg : string)
| ValueError (msg : string)
| ModelError (msg : string)
| TypeError (msg : string)
| IndexError (msg : string).

Inductive result (A : Type) : Type :=
| Ok (a : A)
| Raise (e : exn).
Arguments Ok {A} a.
Arguments Raise {A} e.

Definition rbind {A B} (r : result A) (k : A -> result B) : result B :=
  match r with
  | Ok a => k a
  | Raise e => Raise e
  end.

Global Instance result_ret : MRet result := fun _ a => Ok a.
Global Instance result_bind : MBind result := fun _ _ k r => rbind r k.

(** [assert cond, msg] *)
Definition assert (cond : bool) (msg : string) : result unit :=
  if cond then Ok tt else Raise (AssertionError msg).

(** ** Symbolic arrays *)

(** The name of an argument: a string, or the fresh [object()] that
    [thetamethod] uses when no name is given for the previous state. *)
Inductive argname : Type :=
| Str (s : string)
| Obj.

Global Instance argname_eq_dec : EqDecision argname.
Proof. solve_decision. Defined.

(** Modelled from the spec: the symbolic array of [nutils.function], which
    is not among the sources at hand.  An array is an immutable expression
    node, either a named argument with a fixed shape or an operation [op]
    applied to argument arrays; the kinds of operations [Op] are left to
    the symbolic backend. *)
Inductive Array (Op : Type) : Type :=
| Argument (name : argname) (shape : list nat)
| Node (op : Op) (args : list (Array Op)).
Arguments Argument {Op} name shape.
Arguments Node {Op} op args.

(** A (domain, quadrature scheme) pair: [cache.HashableAny(domain), ischeme].
    The domain is identified by a number. *)
Definition key : Type := (nat * string)%type.

(** [class Integral(dict)]: the entries in insertion order, and [.shape]. *)
Record Integral (Op : Type) : Type := mkIntegral {
  items : list (key * Array Op);
  shape : list nat
}.
Arguments mkIntegral {Op} items shape.
Arguments items {Op} i.
Arguments shape {Op} i.

(** What [_find_argument] accepts in [*funcs]. *)
Inductive FuncArg (Op : Type) : Type :=
| FIntegral (integral : Integral Op)
| FArray (a : Array Op).
Arguments FIntegral {Op} integral.
Arguments FArray {Op} a.

Section FindArgument.
Context {Op : Type}.

(** The outcome of the local function [find]: it raised [Found(target)]
    or returned the edited value. *)
Inductive FindRes : Type :=
| Found (target : Array Op)
| Returned (value : Array Op).

(** Apply [f] to the arguments of a node from left to right, stopping at
    the first [Found]. *)
Definition edit_args (f : Array Op -> FindRes)
  : list (Array Op) -> Array Op + list (Array Op) :=
  fix go (l : list (Array Op)) :=
    match l with
    | [] => inr []
    | a :: l' =>
        match f a with
        | Found t => inl t
        | Returned a' =>
            match go l' with
            | inl t => inl t
            | inr l'' => inr (a' :: l'')
            end
        end
    end.

(** Modelled from the spec: [function.edit(value, f)] rebuilds [value]
    from [f] applied to each of its argument arrays (the test
    [test_edit] recurses through [arg.edit] itself); an argument has no
    argument arrays. *)
Definition edit (value : Array Op) (f : Array Op -> FindRes) : FindRes :=
  match value with
  | Argument n s => Returned (Argument n s)
  | Node op args =>
      match edit_args f args with
      | inl t => Found t
      | inr args' => Returned (Node op args')
      end
  end.

(** [isinstance(value, function.Argument) and value._name == name] *)
Definition is_argument_named (name : string) (value : Array Op) : bool :=
  match value with
  | Argument n _ => bool_decide (n = Str name)
  | Node _ _ => false
  end.

Fixpoint find (name : string) (value : Array Op) {struct value} : FindRes :=
  if is_argument_named name value then Found value
  else edit value (find name).

(** [func.values()] *)
Definition values (integral : Integral Op) : list (Array Op) :=
  map snd (items integral).

Definition funcs_ (funcs : list (FuncArg Op)) : list (Array Op) :=
  flat_map (fun func =>
    match func with
    | FIntegral integral => values integral
    | FArray a => [a]
    end) funcs.

Definition not_found_msg (name : string) : string :=
  String.append "target '" (String.append name "' not found").

Fixpoint find_loop (name : string) (fs : list (Array Op)) : result (Array Op) :=
  match fs with
  | [] => Raise (ValueError (not_found_msg name))
  | func :: rest =>
      match edit func (find name) with
      | Found t => Ok t
      | Returned _ => find_loop name rest
      end
  end.

Definition _find_argument (name : string) (funcs : list (FuncArg Op))
  : result (Array Op) :=
  find_loop name (funcs_ funcs).

(** The argument nodes of an array, from left to right. *)
Fixpoint leaves (a : Array Op) : list (Array Op) :=
  match a with
  | Argument n s => [Argument n s]
  | Node _ args => flat_map leaves args
  end.

(** The argument nodes that a top level [function.edit(func, find)]
    visits: those of the argument arrays of [func]. *)
Definition visited (func : Array Op) : list (Array Op) :=
  match func with
  | Argument _ _ => []
  | Node _ args => flat_map leaves args
  end.

Definition candidates (name : string) (funcs : list (FuncArg Op))
  : list (Array Op) :=
  List.filter (is_argument_named name) (flat_map visited (funcs_ funcs)).

(** The first array of [l] that is an argument named [name]. *)
Definition first_named (name : string) (l : list (Array Op)) : option (Array Op) :=
  head (List.filter (is_argument_named name) l).

End FindArgument.

(** ** Interfaces of the collaborators *)

(** numpy's floating point numbers: the literals, the arithmetic and the
    comparisons that the solvers use.  [flt a b] is [a < b] and [fle a b]
    is [a <= b]; both are [false] on a NaN. *)
Class Scalars (F : Type) : Type := {
  fofZ : Z -> F;
  fhalf : F;
  fadd : F -> F -> F;
  fsub : F -> F -> F;
  fmul : F -> F -> F;
  fdiv : F -> F -> F;
  fneg : F -> F;
  fsqrt : F -> F;
  flt : F -> F -> bool;
  fle : F -> F -> bool;
  isfinite : F -> bool
}.

(** The operations of [nutils.function] on arrays that [solver.py] calls. *)
Class Symbolic (F Op : Type) : Type := {
  op_eqb : Op -> Op -> bool;
  node_shape : Op -> list (Array Op) -> list nat;
  aadd : Array Op -> Array Op -> Array Op;
  amul : Array Op -> F -> Array Op;
  zeros : list nat -> Array Op;
  derivative : Array Op -> Array Op -> Array Op;
  replace_arguments : Array Op -> list (argname * Array Op) -> Array Op
}.

Global Instance argname_countable : Countable argname :=
  inj_countable'
    (fun n => match n with Str s => Some s | Obj => None end)
    (fun o => match o with Some s => Str s | None => Obj end)
    (fun n => match n with Str _ => eq_refl | Obj => eq_refl end).

(** The result of [numpy.sum(rows, axis=0)]: the scalar [0.0] when there is
    no row, the row of column sums otherwise. *)
Inductive NpOut (V : Type) : Type :=
| NpScalar (v : V)
| NpRow (vs : list V).
Arguments NpScalar {V} v.
Arguments NpRow {V} vs.

Section Vectors.
Context {F : Type} {SF : Scalars F}.

(** A float vector in which NaN marks an entry as free (nutils' NanVec
    convention) is a [list (option F)]: [None] is the NaN marker, [Some v]
    a fixed value. *)

(** [v[~constrain]] *)
Fixpoint free (constrain : list bool) (v : list F) : list F :=
  match constrain, v with
  | c :: cs, x :: xs => if c then free cs xs else x :: free cs xs
  | _, _ => []
  end.

Definition fsum (v : list F) : F := fold_left fadd v (fofZ 0).

(** [numpy.dot(a, b)] *)
Definition dot (a b : list F) : F := fsum (zip_with fmul a b).

(** [numpy.linalg.norm(v)] *)
Definition norm (v : list F) : F := fsqrt (dot v v).

Definition vneg (v : list F) : list F := map fneg v.

(** [lhs + relax * dlhs] *)
Definition axpy (lhs : list F) (relax : F) (dlhs : list F) : list F :=
  zip_with fadd lhs (map (fmul relax) dlhs).

Definition vsub (a b : list F) : list F := zip_with fsub a b.

(** Python's [max(a, b)] and [min(a, b)] on two arguments: the first one
    unless the second is strictly larger (smaller). *)
Definition pymax (a b : F) : F := if flt a b then b else a.
Definition pymin (a b : F) : F := if flt b a then b else a.

(** [cons = v.copy(); cons[~constrain] = numpy.nan] *)
Definition nan_where_free (constrain : list bool) (v : list F) : list (option F) :=
  zip_with (fun (c : bool) x => if c then Some x else None) constrain v.

(** [numpy.choose(numpy.isnan(constrain), [constrain, lhs0])] *)
Definition choose_isnan (constrain : list (option F)) (lhs0 : list F) : list F :=
  zip_with (fun c x => match c with Some v => v | None => x end) constrain lhs0.

(** [~numpy.isnan(constrain)] *)
Definition not_isnan (constrain : list (option F)) : list bool :=
  map (fun c => match c with Some _ => true | None => false end) constrain.

End Vectors.

(** The values of the arguments: [collections.ChainMap(a, b)] looks a name
    up in [a] first, which is the left biased union [a ∪ b]. *)
Abbreviation argmap F := (gmap argname (list F)).

(** The numeric side: quadrature, the sum of its results and the matrix
    backend.  [V] is the type of the results of an integration (a vector
    or a matrix). *)
Class Numeric (F Op V : Type) : Type := {
  vadd : V -> V -> V;
  vzero : V;
  integrate : key -> list (Array Op) -> argmap F -> list V;
  set_order : list key -> list key;
  vec_of : V -> list F;
  msolve : V -> list F -> list (option F) -> list F;
  matvec : V -> list F -> list F
}.

Section Dict.
Context {A : Type}.

(** A dict with keys [key] in insertion order. *)
Fixpoint dict_get (k : key) (d : list (key * A)) : option A :=
  match d with
  | [] => None
  | (k', v) :: d' => if bool_decide (k' = k) then Some v else dict_get k d'
  end.

(** [d[k] = v]: replaces the value of an existing key in place, appends
    a new key. *)
Fixpoint dict_set (k : key) (v : A) (d : list (key * A)) : list (key * A) :=
  match d with
  | [] => [(k, v)]
  | (k', v') :: d' =>
      if bool_decide (k' = k) then (k', v) :: d' else (k', v') :: dict_set k v d'
  end.

Definition keys (d : list (key * A)) : list key := map fst d.

End Dict.

Section IntegralOps.
Context {F Op V : Type} {SF : Scalars F} {SY : Symbolic F Op} {NU : Numeric F Op V}.

Fixpoint array_eqb (a b : Array Op) {struct a} : bool :=
  match a, b with
  | Argument n s, Argument n' s' => bool_decide (n = n') && bool_decide (s = s')
  | Node o l, Node o' l' =>
      op_eqb o o' &&
      (fix all2 (l l' : list (Array Op)) {struct l} : bool :=
         match l, l' with
         | [], [] => true
         | x :: r, y :: r' => array_eqb x y && all2 r r'
         | _, _ => false
         end) l l'
  | _, _ => false
  end.

(** Modelled from the spec: [integrand.serialized[0]], the nodes that the
    evaluation of [integrand] depends on, [integrand] itself last. *)
Fixpoint serialized (a : Array Op) : list (Array Op) :=
  match a with
  | Argument n s => [Argument n s]
  | Node op args => flat_map serialized args ++ [Node op args]
  end.

(** [integrand.shape] *)
Definition ashape (a : Array Op) : list nat :=
  match a with
  | Argument _ s => s
  | Node op args => node_shape op args
  end.

(** [Integral(integrand, domain, ischeme)] *)
Definition Integral_init (integrand : Array Op) (domain : nat) (ischeme : string)
  : Integral Op :=
  mkIntegral [((domain, ischeme), integrand)] (ashape integrand).

(** [Integral.empty(shape)] *)
Definition empty (shape : list nat) : Integral Op := mkIntegral [] shape.

(** [numpy.sum(values, axis=0)] on a list of values. *)
Definition np_sum (values : list V) : V :=
  match values with
  | [] => vzero
  | v :: vs => fold_left vadd vs v
  end.

(** [numpy.sum(retvals, axis=0)] on a list of rows. *)
Definition np_sum_rows (retvals : list (list V)) : NpOut V :=
  match retvals with
  | [] => NpScalar vzero
  | r :: rs => NpRow (fold_left (zip_with vadd) rs r)
  end.

(** [integral.get(domain_ischeme, function.zeros(integral.shape))] *)
Definition get_or_zeros (di : key) (integral : Integral Op) : Array Op :=
  default (zeros (shape integral)) (dict_get di (items integral)).

(** [Integral.multieval] on the integrals [integrals].  The cache [fcache]
    only saves work and is left out. *)
Definition multieval (integrals : list (Integral Op)) (arguments : argmap F)
  : NpOut V :=
  let retvals :=
    map (fun di => integrate di (map (get_or_zeros di) integrals) arguments)
        (set_order (flat_map (fun integral => keys (items integral)) integrals)) in
  np_sum_rows retvals.

(** [domain.obj.integrate(integrand, ...)] on a single integrand gives the
    one result. *)
Definition integrate1 (di : key) (integrand : Array Op) (arguments : argmap F) : V :=
  default vzero (head (integrate di [integrand] arguments)).

(** [Integral.eval(self, arguments=...)] *)
Definition eval (self : Integral Op) (arguments : argmap F) : V :=
  np_sum (map (fun '(di, integrand) => integrate1 di integrand arguments) (items self)).

(** [Integral.derivative(self, target)].  The dict [seen] memoises the
    derivatives of shared subexpressions and is left out. *)
Definition Integral_derivative (self : Integral Op) (target : string)
  : result (Integral Op) :=
  target ← _find_argument target [FIntegral self];
  _ ← assert (bool_decide (length (ashape target) = 1)) "";
  Ok (mkIntegral
        (map (fun '(di, integrand) => (di, derivative integrand target)) (items self))
        (shape self ++ ashape target)).

(** [Integral.replace(self, arguments)] *)
Definition Integral_replace (self : Integral Op)
    (arguments : list (argname * Array Op)) : Integral Op :=
  mkIntegral
    (map (fun '(di, integrand) => (di, replace_arguments integrand arguments)) (items self))
    (shape self).

(** [Integral.contains(self, target)] *)
Definition contains (self : Integral Op) (target : Array Op) : bool :=
  existsb (fun integrand => existsb (array_eqb target) (serialized integrand))
          (values self).

(** The loop of [__add__]: [add[k] += integrand], or [add[k] = integrand]
    on a KeyError. *)
Definition add_item (add : list (key * Array Op)) (kv : key * Array Op)
  : list (key * Array Op) :=
  match dict_get kv.1 add with
  | Some a => dict_set kv.1 (aadd a kv.2) add
  | None => dict_set kv.1 kv.2 add
  end.

(** The entry of [a + b] under a key, from the entries of [a] and of [b]
    under that key. *)
Definition sum_entry (x y : option (Array Op)) : option (Array Op) :=
  match x, y with
  | Some x, Some y => Some (aadd x y)
  | Some x, None => Some x
  | None, Some y => Some y
  | None, None => None
  end.

(** [Integral.__add__(self, other)] *)
Definition Integral_add (self other : Integral Op) : result (Integral Op) :=
  _ ← assert (bool_decide (shape self = shape other)) "";
  Ok (mkIntegral (fold_left add_item (items other) (items self)) (shape self)).

(** [Integral.__mul__(self, other)] for a number [other]. *)
Definition Integral_mul (self : Integral Op) (other : F) : Integral Op :=
  mkIntegral
    (map (fun '(di, integrand) => (di, amul integrand other)) (items self))
    (shape self).

(** [Integral.__neg__(self)] *)
Definition Integral_neg (self : Integral Op) : Integral Op :=
  Integral_mul self (fofZ (-1)).

(** [Integral.__sub__(self, other)] *)
Definition Integral_sub (self other : Integral Op) : result (Integral Op) :=
  Integral_add self (Integral_neg other).

(** [Integral.__truediv__(self, other)] *)
Definition Integral_truediv (self : Integral Op) (other : F) : Integral Op :=
  Integral_mul self (fdiv (fofZ 1) other).

End IntegralOps.

(** ** Generators, the log and [solve] *)

(** The messages that the solvers hand to [nutils.log]; numbers are kept
    as they are instead of being formatted. *)
Inductive logmsg (F : Type) : Type :=
| InfoLinear                                       (* 'problem is linear' *)
| InfoEvalFailed (newresnorm : F)                  (* 'failed to evaluate residual' *)
| InfoLineSearch (relax newresnorm resnorm : F)    (* 'line search: ...' *)
| InfoCubic (newrelax : F)                         (* 'minimum based on 3rd order estimation' *)
| InfoQuadratic (newrelax : F)                     (* 'minimum based on 2nd order estimation' *)
| WarnDecrease                                     (* warning 'failed to decrease residual' *)
| InfoResidual (resnorm : F)                       (* 'residual: ...' *)
| InfoReached (inewton : nat) (resnorm : F)        (* 'tolerance reached in ...' *)
| InfoTimestep (thistimestep : F).                 (* 'timestep: ...' *)
Arguments InfoLinear {F}.
Arguments InfoEvalFailed {F} newresnorm.
Arguments InfoLineSearch {F} relax newresnorm resnorm.
Arguments InfoCubic {F} newrelax.
Arguments InfoQuadratic {F} newrelax.
Arguments WarnDecrease {F}.
Arguments InfoResidual {F} resnorm.
Arguments InfoReached {F} inewton resnorm.
Arguments InfoTimestep {F} thistimestep.

(** What [next(gen)] does to a generator in state [S]: it yields a value
    and suspends, it returns ([StopIteration]), it raises, or its inner
    loop runs beyond the fuel given. *)
Inductive step (S A : Type) : Type :=
| Yield (a : A) (s : S)
| StopIteration
| Raised (e : exn)
| Diverges.
Arguments Yield {S A} a s.
Arguments StopIteration {S A}.
Arguments Raised {S A}.
Arguments Diverges {S A}.

(** The outcome of a call whose loop is bounded by fuel. *)
Inductive outcome (A : Type) : Type :=
| Returns (a : A)
| Raises (e : exn)
| NoFuel.
Arguments Returns {A} a.
Arguments Raises {A} e.
Arguments NoFuel {A}.

Definition stopped_msg : string :=
  "generator stopped before reaching target tolerance".

Definition not_reached_msg (maxiter : nat) : string :=
  String.append "tolerance not reached in "
    (String.append (pretty maxiter) " iterations").

(** [inewton >= maxiter], [irelax >= nrelax]: the bound is [numpy.inf]
    ([None]) or a number. *)
Definition reached (i : nat) (bound : option nat) : bool :=
  match bound with
  | None => false
  | Some n => bool_decide (n ≤ i)
  end.

Section Solve.
Context {F : Type} {SF : Scalars F} {S : Type}.
Variable next : S -> step S (list F * F) * list (logmsg F).
Variables (tol : F) (maxiter : option nat).

(** The [while resnorm > tol] loop of [solve].  The first residual norm
    [resnorm0] only enters the progress shown by [log.context] and is left
    out. *)
Fixpoint solve_loop (fuel : nat) (gen : S) (lhs : list F) (resnorm : F)
    (inewton : nat) : outcome (list F) * list (logmsg F) :=
  match fuel with
  | O => (NoFuel, [])
  | Datatypes.S fuel' =>
      if flt tol resnorm then
        if reached inewton maxiter then
          (Raises (ModelError (not_reached_msg (default 0 maxiter))), [])
        else
          match next gen with
          | (Yield (lhs', resnorm') gen', l) =>
              let '(o, l') := solve_loop fuel' gen' lhs' resnorm' (Datatypes.S inewton) in
              (o, InfoResidual resnorm :: l ++ l')
          | (StopIteration, l) =>
              (Raises (ModelError stopped_msg), InfoResidual resnorm :: l)
          | (Raised e, l) => (Raises e, InfoResidual resnorm :: l)
          | (Diverges, l) => (NoFuel, InfoResidual resnorm :: l)
          end
      else (Returns lhs, [InfoReached inewton resnorm])
  end.

(** [solve(gen_lhs_resnorm, tol, maxiter)] *)
Definition solve (fuel : nat) (gen : S) : outcome (list F) * list (logmsg F) :=
  match next gen with
  | (Yield (lhs, resnorm) gen', l) =>
      let '(o, l') := solve_loop fuel gen' lhs resnorm 0 in (o, l ++ l')
  | (StopIteration, l) => (Raises (ModelError stopped_msg), l)
  | (Raised e, l) => (Raises e, l)
  | (Diverges, l) => (NoFuel, l)
  end.

(** The values that the first [n] calls of [next] yield. *)
Fixpoint take_yields (n : nat) (gen : S) : list (list F * F) :=
  match n with
  | O => []
  | Datatypes.S n' =>
      match next gen with
      | (Yield a gen', _) => a :: take_yields n' gen'
      | _ => []
      end
  end.

(** The state in which the generator is suspended after [n] calls of
    [next] that all yield. *)
Fixpoint state_after (n : nat) (gen : S) : option S :=
  match n with
  | O => Some gen
  | Datatypes.S n' =>
      match next gen with
      | (Yield _ gen', _) => state_after n' gen'
      | _ => None
      end
  end.

End Solve.

(** ** Constraints *)

(** [constrain]: a boolean mask of the fixed entries, or a float vector
    with NaN in the free entries. *)
Inductive constraint (F : Type) : Type :=
| CBool (mask : list bool)
| CFloat (c : list (option F)).
Arguments CBool {F} mask.
Arguments CFloat {F} c.

Definition numel (shape : list nat) : nat := foldr Nat.mul 1 shape.

Section Common.
Context {F Op V : Type} {SF : Scalars F} {SY : Symbolic F Op} {NU : Numeric F Op V}.

(** [numpy.zeros(shape)], kept flat. *)
Definition zeros_vec (shape : list nat) : list F := repeat (fofZ 0) (numel shape).

Definition invalid_constrain : string := "invalid constrain argument".
Definition target_defined : string :=
  "`target` should not be defined in `arguments`".
Definition target0_defined : string :=
  "`target0` should not be defined in `arguments`".

(** The normalisation of [constrain] at the entry of [newton] and
    [pseudotime]: the result is the initial iterate with the imposed
    values and the mask of the fixed entries. *)
Definition normalize (shape : list nat) (lhs0 : list F)
    (constrain : option (constraint F)) : result (list F * list bool) :=
  match constrain with
  | None => Ok (lhs0, repeat false (numel shape))
  | Some (CBool mask) =>
      _ ← assert (bool_decide ([length mask] = shape)) invalid_constrain;
      Ok (lhs0, mask)
  | Some (CFloat c) =>
      _ ← assert (bool_decide ([length c] = shape)) invalid_constrain;
      Ok (choose_isnan c lhs0, not_isnan c)
  end.

(** A boolean mask indexes a vector of its own length only. *)
Definition check_mask {A} (mask : list bool) (v : list A) : result unit :=
  if bool_decide (length mask = length v) then Ok tt
  else Raise (IndexError "boolean index did not match indexed array").

(** [res, jac = Integral.multieval(residual, jacobian, ...)] *)
Definition unpack2 (o : NpOut V) : result (V * V) :=
  match o with
  | NpRow [a; b] => Ok (a, b)
  | NpRow _ => Raise (ValueError "wrong number of values to unpack")
  | NpScalar _ => Raise (TypeError "cannot unpack non-iterable object")
  end.

Definition multieval2 (residual jacobian : Integral Op) (arguments : argmap F)
  : result (V * V) :=
  unpack2 (multieval [residual; jacobian] arguments).

(** The entry [i] of the iterate [lhs] has the value that [constrain]
    imposes on it: the value in a float [constrain], the value of the
    initial iterate [lhs0] under a boolean mask. *)
Definition holds_imposed (constrain : option (constraint F)) (lhs0 lhs : list F)
    (i : nat) : Prop :=
  match constrain with
  | Some (CFloat c) => forall v, c !! i = Some (Some v) -> lhs !! i = Some v
  | Some (CBool mask) => mask !! i = Some true -> lhs !! i = lhs0 !! i
  | None => True
  end.

End Common.

(** ** [newton] *)

Section Newton.
Context {F Op V : Type} {SF : Scalars F} {SY : Symbolic F Op} {NU : Numeric F Op V}.

(** The arguments of [newton(target, residual, lhs0, constrain, nrelax,
    minrelax, maxrelax, rebound, arguments)]; [arguments=None] is the
    empty map. *)
Variables (target : string) (residual : Integral Op) (lhs0 : option (list F))
          (constrain : option (constraint F)) (nrelax : option nat)
          (minrelax maxrelax rebound : F) (arguments : argmap F).

(** The local variables of the generator while it is suspended in its
    [while True] loop. *)
Record newton_frame : Type := mkFrame {
  fr_jacobian : Integral Op;
  fr_constrain : list bool;
  fr_zcons : list (option F);
  fr_lhs : list F;
  fr_res : V;
  fr_jac : V;
  fr_relax : F;
  fr_resnorm : F
}.

Inductive newton_state : Type :=
| NStart                       (* created, the body has not run yet *)
| NLinear                      (* suspended at the [yield] of the linear branch *)
| NLoop (fr : newton_frame).   (* suspended at the [yield] of the loop *)

(** The body up to the test on the Jacobian. *)
Definition newton_prelude : result (Array Op * list F * list bool * Integral Op) :=
  _ ← assert (bool_decide (arguments !! Str target = None)) target_defined;
  resolved_target ← _find_argument target [FIntegral residual];
  lhs0 ← match lhs0 with
          | None => Ok (zeros_vec (shape residual))
          | Some l =>
              _ ← assert (bool_decide ([length l] = shape residual)) "invalid lhs0 argument";
              Ok l
          end;
  '(lhs0, constrain) ← normalize (shape residual) lhs0 constrain;
  jacobian ← Integral_derivative residual target;
  Ok (resolved_target, lhs0, constrain, jacobian).

(** The linear branch, up to its [yield lhs, 0]. *)
Definition newton_linear (resolved_target : Array Op) (lhs0 : list F)
    (constrain : list bool) (jacobian : Integral Op) : result (list F * F) :=
  '(res, jac) ← multieval2 residual jacobian
      (arguments ∪ {[Str target := zeros_vec (ashape resolved_target)]});
  _ ← check_mask constrain lhs0;
  let cons := nan_where_free constrain lhs0 in
  let lhs := msolve jac (vneg (vec_of res)) cons in
  Ok (lhs, fofZ 0).

(** The nonlinear branch, up to the first [yield lhs, resnorm]. *)
Definition newton_enter (resolved_target : Array Op) (lhs0 : list F)
    (constrain : list bool) (jacobian : Integral Op) : result newton_frame :=
  let lhs := lhs0 in
  '(res, jac) ← multieval2 residual jacobian (arguments ∪ {[Str target := lhs]});
  let zcons := repeat (fofZ 0) (hd 0 (ashape resolved_target)) in
  _ ← check_mask constrain zcons;
  let zcons := nan_where_free constrain zcons in
  let relax := fofZ 1 in
  let resnorm := norm (free constrain (vec_of res)) in
  Ok (mkFrame jacobian constrain zcons lhs res jac relax resnorm).

Definition newton_start : step newton_state (list F * F) * list (logmsg F) :=
  match newton_prelude with
  | Raise e => (Raised e, [])
  | Ok (resolved_target, lhs0, constrain, jacobian) =>
      if negb (contains jacobian resolved_target) then
        match newton_linear resolved_target lhs0 constrain jacobian with
        | Raise e => (Raised e, [InfoLinear])
        | Ok y => (Yield y NLinear, [InfoLinear])
        end
      else
        match newton_enter resolved_target lhs0 constrain jacobian with
        | Raise e => (Raised e, [])
        | Ok fr => (Yield (fr_lhs fr, fr_resnorm fr) (NLoop fr), [])
        end
  end.

(** What one pass through the body of [for irelax in itertools.count()]
    does. *)
Inductive ls_step : Type :=
| LsContinue (relax : F)        (* [relax *= max(newrelax, minrelax)], next [irelax] *)
| LsBreak (res jac : V)         (* [break] *)
| LsReturn                      (* [return]: the residual failed to decrease *)
| LsRaise (e : exn).

(** The cubic and the quadratic estimate of the optimal relaxation. *)
Definition estimate (r0 d0 r1 d1 : F) : F * logmsg F :=
  let D := fadd (fadd (fsub (fmul (fofZ 2) r0) (fmul (fofZ 2) r1)) d0) d1 in
  if flt (fofZ 0) D then
    let C := fsub (fsub (fsub (fmul (fofZ 3) r1) (fmul (fofZ 3) r0))
                        (fmul (fofZ 2) d0)) d1 in
    let newrelax :=
      fdiv (fsub (fsqrt (fsub (fmul C C) (fmul (fmul (fofZ 3) d0) D))) C)
           (fmul (fofZ 3) D) in
    (newrelax, InfoCubic newrelax)
  else
    let C := fsub (fsub r1 r0) d0 in
    let newrelax := fdiv (fmul (fneg fhalf) d0) C in
    (newrelax, InfoQuadratic newrelax).

Definition ls_body (fr : newton_frame) (dlhs : list F) (irelax : nat) (relax : F)
  : ls_step * list (logmsg F) :=
  match multieval2 residual (fr_jacobian fr)
          (arguments ∪ {[Str target := axpy (fr_lhs fr) relax dlhs]}) with
  | Raise e => (LsRaise e, [])
  | Ok (res, jac) =>
      let resnorm := fr_resnorm fr in
      let newresnorm := norm (free (fr_constrain fr) (vec_of res)) in
      if reached irelax nrelax then
        if flt resnorm newresnorm then (LsReturn, [WarnDecrease])
        else (LsBreak res jac, [])
      else if negb (isfinite newresnorm) then
        let newrelax := fofZ 0 in
        (LsContinue (fmul relax (pymax newrelax minrelax)), [InfoEvalFailed newresnorm])
      else
        let r0 := fmul resnorm resnorm in
        let d0 := fmul (fofZ (-2)) r0 in
        let r1 := fmul newresnorm newresnorm in
        let d1 := fmul (fofZ 2)
                    (dot (free (fr_constrain fr) (matvec jac dlhs))
                         (free (fr_constrain fr) (vec_of res))) in
        let msg := InfoLineSearch relax newresnorm resnorm in
        if fle r1 r0 && fle d1 (fofZ 0) then (LsBreak res jac, [msg])
        else
          let '(newrelax, msg') := estimate r0 d0 r1 d1 in
          if flt maxrelax newrelax then (LsBreak res jac, [msg; msg'])
          else (LsContinue (fmul relax (pymax newrelax minrelax)), [msg; msg'])
  end.

(** How the line search ends. *)
Inductive ls_out : Type :=
| LsAccept (relax : F) (res jac : V)
| LsDiverged
| LsRaised (e : exn)
| LsNoFuel.

Fixpoint linesearch (fuel : nat) (fr : newton_frame) (dlhs : list F)
    (irelax : nat) (relax : F) : ls_out * list (logmsg F) :=
  match fuel with
  | O => (LsNoFuel, [])
  | Datatypes.S fuel' =>
      match ls_body fr dlhs irelax relax with
      | (LsContinue relax', l) =>
          let '(o, l') := linesearch fuel' fr dlhs (Datatypes.S irelax) relax' in
          (o, l ++ l')
      | (LsBreak res jac, l) => (LsAccept relax res jac, l)
      | (LsReturn, l) => (LsDiverged, l)
      | (LsRaise e, l) => (LsRaised e, l)
      end
  end.

(** The relaxation at the pass [irelax + k] when the [k] passes from
    [irelax] on all end in a retry. *)
Fixpoint ls_after (fr : newton_frame) (dlhs : list F) (k irelax : nat) (relax : F)
  : option F :=
  match k with
  | O => Some relax
  | Datatypes.S k' =>
      match ls_body fr dlhs irelax relax with
      | (LsContinue relax', _) => ls_after fr dlhs k' (Datatypes.S irelax) relax'
      | _ => None
      end
  end.

(** The loop body after the [yield], up to the next [yield].  The update
    [lhs += relax * dlhs] is made in place on the array that was yielded;
    a yield of the model carries the value of the array at that time. *)
Definition newton_resume (fuel : nat) (fr : newton_frame)
  : step newton_state (list F * F) * list (logmsg F) :=
  let dlhs := vneg (msolve (fr_jac fr) (vec_of (fr_res fr)) (fr_zcons fr)) in
  let relax := pymin (fmul (fr_relax fr) rebound) (fofZ 1) in
  match linesearch fuel fr dlhs 0 relax with
  | (LsAccept relax res jac, l) =>
      let lhs := axpy (fr_lhs fr) relax dlhs in
      let resnorm := norm (free (fr_constrain fr) (vec_of res)) in
      let fr' := mkFrame (fr_jacobian fr) (fr_constrain fr) (fr_zcons fr)
                         lhs res jac relax resnorm in
      (Yield (lhs, resnorm) (NLoop fr'), l)
  | (LsDiverged, l) => (StopIteration, l)
  | (LsRaised e, l) => (Raised e, l)
  | (LsNoFuel, l) => (Diverges, l)
  end.

(** The invariant of the loop for the initial iterate [l0]: the iterate
    has the length of the mask, the constraints of the update fix the
    masked entries at zero, and the masked entries of the iterate are
    those of [l0]. *)
Definition frame_ok (l0 : list F) (fr : newton_frame) : Prop :=
  length (fr_lhs fr) = length (fr_constrain fr) /\
  fr_zcons fr
    = nan_where_free (fr_constrain fr) (repeat (fofZ 0) (length (fr_constrain fr))) /\
  forall i, fr_constrain fr !! i = Some true -> fr_lhs fr !! i = l0 !! i.

(** [next(newton(...))]; [fuel] bounds the passes of one line search. *)
Definition newton_next (fuel : nat) (st : newton_state)
  : step newton_state (list F * F) * list (logmsg F) :=
  match st with
  | NStart => newton_start
  | NLinear => (StopIteration, [])
  | NLoop fr => newton_resume fuel fr
  end.

End Newton.

(** [newton(...).solve(tol)]: [solve] on a fresh generator, [maxiter] at
    its default [numpy.inf]. *)
Definition newton_solve {F Op V : Type} {SF : Scalars F} {SY : Symbolic F Op} {NU : Numeric F Op V}
    (fuel : nat) (target : string) (residual : Integral Op) (lhs0 : option (list F))
    (constrain : option (constraint F)) (nrelax : option nat)
    (minrelax maxrelax rebound : F) (arguments : argmap F) (tol : F)
  : outcome (list F) * list (logmsg F) :=
  solve (newton_next target residual lhs0 constrain nrelax minrelax maxrelax rebound
                     arguments fuel)
        tol None fuel NStart.

(** ** [pseudotime] *)

Section Pseudotime.
Context {F Op V : Type} {SF : Scalars F} {SY : Symbolic F Op} {NU : Numeric F Op V}.

Variables (target : string) (residual inertia : Integral Op) (timestep : F)
          (lhs0 : list F) (residual0 : option (Integral Op))
          (constrain : option (constraint F)) (arguments : argmap F).

(** The local variables of the suspended generator.  [timestep] itself
    is an argument that the body never assigns. *)
Record pseudotime_frame : Type := mkPFrame {
  pf_residual : Integral Op;
  pf_jacobian0 : Integral Op;
  pf_jacobiant : Integral Op;
  pf_constrain : list bool;
  pf_zcons : list (option F);
  pf_lhs : list F;
  pf_res : V;
  pf_jac : V;
  pf_resnorm0 : F;
  pf_resnorm : F
}.

Inductive pseudotime_state : Type :=
| PStart
| PLoop (fr : pseudotime_frame).

(** [zcons = util.NanVec(n); zcons[constrain] = 0] *)
Definition zero_where_fixed (constrain : list bool) : list (option F) :=
  map (fun c : bool => if c then Some (fofZ 0) else None) constrain.

Definition pseudotime_enter : result pseudotime_frame :=
  _ ← assert (bool_decide (arguments !! Str target = None)) target_defined;
  jacobian0 ← Integral_derivative residual target;
  jacobiant ← Integral_derivative inertia target;
  residual ← match residual0 with
              | Some r0 => Integral_add residual r0
              | None => Ok residual
              end;
  '(lhs0, constrain) ← normalize (shape residual) lhs0 constrain;
  (* [residual0=None] is no array: [function.edit] leaves it alone *)
  resolved ← _find_argument target
               (FIntegral residual ::
                match residual0 with Some r0 => [FIntegral r0] | None => [] end);
  _ ← check_mask constrain (repeat (fofZ 0) (hd 0 (ashape resolved)));
  let zcons := zero_where_fixed constrain in
  let lhs := lhs0 in
  jacobian ← Integral_add jacobian0 (Integral_truediv jacobiant timestep);
  '(res, jac) ← multieval2 residual jacobian (arguments ∪ {[Str target := lhs]});
  let resnorm := norm (free constrain (vec_of res)) in
  Ok (mkPFrame residual jacobian0 jacobiant constrain zcons lhs res jac resnorm resnorm).

(** [thistimestep = timestep * (resnorm0/resnorm)] *)
Definition thistimestep (fr : pseudotime_frame) : F :=
  fmul timestep (fdiv (pf_resnorm0 fr) (pf_resnorm fr)).

(** The loop body after the [yield]. *)
Definition pseudotime_body (fr : pseudotime_frame) : result pseudotime_frame :=
  let lhs := vsub (pf_lhs fr) (msolve (pf_jac fr) (vec_of (pf_res fr)) (pf_zcons fr)) in
  jacobian ← Integral_add (pf_jacobian0 fr)
               (Integral_truediv (pf_jacobiant fr) (thistimestep fr));
  '(res, jac) ← multieval2 (pf_residual fr) jacobian (arguments ∪ {[Str target := lhs]});
  let resnorm := norm (free (pf_constrain fr) (vec_of res)) in
  Ok (mkPFrame (pf_residual fr) (pf_jacobian0 fr) (pf_jacobiant fr) (pf_constrain fr)
               (pf_zcons fr) lhs res jac (pf_resnorm0 fr) resnorm).

(** [next(pseudotime(...))] *)
Definition pseudotime_next (st : pseudotime_state)
  : step pseudotime_state (list F * F) * list (logmsg F) :=
  match st with
  | PStart =>
      match pseudotime_enter with
      | Raise e => (Raised e, [])
      | Ok fr => (Yield (pf_lhs fr, pf_resnorm fr) (PLoop fr), [])
      end
  | PLoop fr =>
      match pseudotime_body fr with
      | Raise e => (Raised e, [InfoTimestep (thistimestep fr)])
      | Ok fr' =>
          (Yield (pf_lhs fr', pf_resnorm fr') (PLoop fr'), [InfoTimestep (thistimestep fr)])
      end
  end.

(** The timesteps that the first [n] resumptions log, oldest first. *)
Fixpoint pseudotime_timesteps (n : nat) (st : pseudotime_state) : list F :=
  match n with
  | O => []
  | Datatypes.S n' =>
      match pseudotime_next st with
      | (Yield _ st', l) =>
          omap (fun m => match m with InfoTimestep t => Some t | _ => None end) l
          ++ pseudotime_timesteps n' st'
      | _ => []
      end
  end.

(** The timesteps as the specification words them: the timestep is
    multiplied in place by [norm0 / norm] at every step, [norms] being the
    residual norms at the successive steps. *)
Fixpoint cumulative_timesteps (timestep norm0 : F) (norms : list F) : list F :=
  match norms with
  | [] => []
  | r :: rest =>
      let timestep := fmul timestep (fdiv norm0 r) in
      timestep :: cumulative_timesteps timestep norm0 rest
  end.

(** The residual norms that the first [n] calls of [next] yield. *)
Fixpoint pseudotime_norms (n : nat) (st : pseudotime_state) : list F :=
  match n with
  | O => []
  | Datatypes.S n' =>
      match pseudotime_next st with
      | (Yield (_, resnorm) st', _) => resnorm :: pseudotime_norms n' st'
      | _ => []
      end
  end.

End Pseudotime.

(** ** [thetamethod] *)

Section Thetamethod.
Context {F Op V : Type} {SF : Scalars F} {SY : Symbolic F Op} {NU : Numeric F Op V}.

(** [newtonargs] are the line search parameters handed on to [newton]. *)
Variables (target : string) (residual inertia : Integral Op) (timestep : F)
          (lhs0 : list F) (theta : F) (target0 : option string)
          (constrain : option (constraint F)) (tol : F) (arguments : argmap F)
          (nrelax : option nat) (minrelax maxrelax rebound : F).

Inductive theta_state : Type :=
| TStart
| TLoop (res : Integral Op) (target0 : argname) (lhs : list F).

(** [if target0: assert ... else: target0 = object()] *)
Definition theta_target0 : result argname :=
  match target0 with
  | Some (String c s) =>
      _ ← assert (bool_decide (arguments !! Str (String c s) = None)) target0_defined;
      Ok (Str (String c s))
  | _ => Ok Obj
  end.

(** The body up to the [while True]. *)
Definition theta_enter : result (Integral Op * argname) :=
  _ ← assert (bool_decide (arguments !! Str target = None)) target_defined;
  target0 ← theta_target0;
  let lhs := lhs0 in
  res0 ← Integral_add (Integral_mul residual theta) (Integral_truediv inertia timestep);
  res1 ← Integral_sub (Integral_mul residual (fsub (fofZ 1) theta))
                       (Integral_truediv inertia timestep);
  res ← Integral_add res0
          (Integral_replace res1 [(Str target, Argument target0 [length lhs])]);
  Ok (res, target0).

(** [next(thetamethod(...))]; [fuel] bounds the loops of [newton] and
    of [solve]. *)
Definition thetamethod_next (fuel : nat) (st : theta_state)
  : step theta_state (list F) * list (logmsg F) :=
  match st with
  | TStart =>
      match theta_enter with
      | Raise e => (Raised e, [])
      | Ok (res, target0) => (Yield lhs0 (TLoop res target0 lhs0), [])
      end
  | TLoop res target0 lhs =>
      match newton_solve fuel target res (Some lhs) constrain nrelax minrelax maxrelax
              rebound (arguments ∪ {[target0 := lhs]}) tol with
      | (Returns lhs', l) => (Yield lhs' (TLoop res target0 lhs'), l)
      | (Raises e, l) => (Raised e, l)
      | (NoFuel, l) => (Diverges, l)
      end
  end.

(** The elements that the first [n] calls of [next] produce. *)
Fixpoint thetamethod_take (fuel n : nat) (st : theta_state) : list (list F) :=
  match n with
  | O => []
  | Datatypes.S n' =>
      match thetamethod_next fuel st with
      | (Yield lhs st', _) => lhs :: thetamethod_take fuel n' st'
      | _ => []
      end
  end.

End Thetamethod.

(** ** A small backend: entrywise problems

    An instance of the interfaces on which the solvers can be run: every
    array is a vector of independent entries, the quadrature of a domain
    evaluates the integrand once, a Jacobian is the vector of its diagonal
    and the constrained solve divides entry by entry. *)

Inductive eop (F : Type) : Type :=
| EConst (v : list F)
| EAdd
| EMul
| EScale (c : F)
| EInv
| EZeros (shape : list nat).
Arguments EConst {F} v.
Arguments EAdd {F}.
Arguments EMul {F}.
Arguments EScale {F} c.
Arguments EInv {F}.
Arguments EZeros {F} shape.

Section Entrywise.
Context {F : Type} {SF : Scalars F} {EF : EqDecision F}.

Definition eop_eqb (a b : eop F) : bool :=
  match a, b with
  | EConst v, EConst w => bool_decide (v = w)
  | EAdd, EAdd => true
  | EMul, EMul => true
  | EInv, EInv => true
  | EScale c, EScale d => bool_decide (c = d)
  | EZeros s, EZeros t => bool_decide (s = t)
  | _, _ => false
  end.

Fixpoint eshape (a : Array (eop F)) : list nat :=
  match a with
  | Argument _ s => s
  | Node (EConst v) _ => [length v]
  | Node (EZeros s) _ => s
  | Node _ args =>
      match args with
      | x :: _ => eshape x
      | [] => []
      end
  end.

Definition ezeros (shape : list nat) : Array (eop F) := Node (EZeros shape) [].

(** The diagonal of the derivative of an entrywise array to [target]. *)
Fixpoint ederivative (target a : Array (eop F)) {struct a} : Array (eop F) :=
  match a with
  | Argument n s =>
      match target with
      | Argument n' _ =>
          if bool_decide (n = n') then Node (EConst (repeat (fofZ 1) (hd 0 s))) []
          else ezeros (s ++ s)
      | _ => ezeros (s ++ s)
      end
  | Node EAdd [x; y] => Node EAdd [ederivative target x; ederivative target y]
  | Node EMul [x; y] =>
      Node EAdd [Node EMul [ederivative target x; y]; Node EMul [x; ederivative target y]]
  | Node (EScale c) [x] => Node (EScale c) [ederivative target x]
  | Node EInv [x] =>
      Node (EScale (fofZ (-1)))
        [Node EMul [Node EMul [Node EInv [x]; Node EInv [x]]; ederivative target x]]
  | Node op args => ezeros (eshape (Node op args) ++ eshape (Node op args))
  end.

Fixpoint ereplace (arguments : list (argname * Array (eop F))) (a : Array (eop F))
    {struct a} : Array (eop F) :=
  match a with
  | Argument n s =>
      default (Argument n s)
        (snd <$> List.find (fun p => bool_decide (p.1 = n)) arguments)
  | Node op args => Node op (map (ereplace arguments) args)
  end.

(** The value of an array for given values of the arguments. *)
Fixpoint evalue (arguments : argmap F) (a : Array (eop F)) {struct a} : list F :=
  match a with
  | Argument n s => default [] (arguments !! n)
  | Node (EConst v) _ => v
  | Node (EZeros s) _ => repeat (fofZ 0) (hd 0 s)
  | Node EAdd [x; y] => zip_with fadd (evalue arguments x) (evalue arguments y)
  | Node EMul [x; y] => zip_with fmul (evalue arguments x) (evalue arguments y)
  | Node (EScale c) [x] => map (fun v => fmul v c) (evalue arguments x)
  | Node EInv [x] => map (fdiv (fofZ 1)) (evalue arguments x)
  | Node _ _ => []
  end.

(** The constrained solve of a diagonal system. *)
Fixpoint esolve (jac rhs : list F) (cons : list (option F)) : list F :=
  match cons with
  | [] => []
  | Some v :: cons' => v :: esolve (tail jac) (tail rhs) cons'
  | None :: cons' =>
      fdiv (hd (fofZ 0) rhs) (hd (fofZ 1) jac) :: esolve (tail jac) (tail rhs) cons'
  end.

Definition entrywise_symbolic : Symbolic F (eop F) := {|
  op_eqb := eop_eqb;
  node_shape := fun op args => eshape (Node op args);
  aadd := fun a b => Node EAdd [a; b];
  amul := fun a c => Node (EScale c) [a];
  zeros := ezeros;
  derivative := fun a target => ederivative target a;
  replace_arguments := fun a arguments => ereplace arguments a
|}.

Definition entrywise_numeric : Numeric F (eop F) (list F) := {|
  vadd := zip_with fadd;
  vzero := [];
  integrate := fun _ integrands arguments => map (evalue arguments) integrands;
  set_order := remove_dups;
  vec_of := fun v => v;
  msolve := esolve;
  matvec := zip_with fmul
|}.

End Entrywise.

(** Exact rational numbers as scalars; the square root is exact on the
    squares of rationals and rounded down to a multiple of the inverse of
    the denominator otherwise. *)
Definition Qc_sqrt (q : Qc) : Qc :=
  Q2Qc (Z.sqrt (Qnum q * Zpos (Qden q)) # Qden q).

Definition Qc_scalars : Scalars Qc := {|
  fofZ := fun z => Q2Qc (inject_Z z);
  fhalf := Q2Qc (1 # 2);
  fadd := Qcplus;
  fsub := Qcminus;
  fmul := Qcmult;
  fdiv := Qcdiv;
  fneg := Qcopp;
  fsqrt := Qc_sqrt;
  flt := fun a b => match Qccompare a b with Lt => true | _ => false end;
  fle := fun a b => match Qccompare a b with Gt => false | _ => true end;
  isfinite := fun _ => true
|}.

(** Rational numbers in lowest terms with one more value, NaN ([None]),
    that every operation propagates; a division by zero and the square
    root of a negative number give NaN, and NaN compares false. *)
Definition xnum : Type := option Q.

Definition xlift2 (f : Q -> Q -> Q) (a b : xnum) : xnum :=
  match a, b with
  | Some x, Some y => Some (Qred (f x y))
  | _, _ => None
  end.

Definition xdiv (a b : xnum) : xnum :=
  match a, b with
  | Some x, Some y =>
      match Qnum y with
      | Z0 => None
      | _ => Some (Qred (x / y))
      end
  | _, _ => None
  end.

Definition xsqrt (a : xnum) : xnum :=
  match a with
  | Some x =>
      match Qnum x with
      | Zneg _ => None
      | _ => Some (Qred (Z.sqrt (Qnum x * Zpos (Qden x)) # Qden x))
      end
  | None => None
  end.

Definition xcompare (a b : xnum) : option comparison :=
  match a, b with
  | Some x, Some y => Some (Qcompare x y)
  | _, _ => None
  end.

Definition xnum_scalars : Scalars xnum := {|
  fofZ := fun z => Some (inject_Z z);
  fhalf := Some (1 # 2);
  fadd := xlift2 Qplus;
  fsub := xlift2 Qminus;
  fmul := xlift2 Qmult;
  fdiv := xdiv;
  fneg := fun a => match a with Some x => Some (Qopp x) | None => None end;
  fsqrt := xsqrt;
  flt := fun a b => match xcompare a b with Some Lt => true | _ => false end;
  fle := fun a b => match xcompare a b with Some Lt | Some Eq => true | _ => false end;
  isfinite := fun a => match a with Some _ => true | None => false end
|}.

Global Instance Q_eq_dec : EqDecision Q.
Proof. solve_decision. Defined.

(** A second numeric backend, for scalar valued integrals over the exact
    rationals: the quadrature gives the first entry of the value of the
    integrand, and the sum of the results is the sum of rationals. *)
Definition first_entry_numeric : Numeric Qc (eop Qc) Qc := {|
  vadd := Qcplus;
  vzero := Q2Qc 0;
  integrate := fun _ integrands arguments =>
    map (fun integrand => hd (Q2Qc 0) (evalue (SF := Qc_scalars) arguments integrand))
        integrands;
  set_order := remove_dups;
  vec_of := fun v => [v];
  msolve := fun jac rhs cons =>
    zip_with (fun r c => match c with Some v => v | None => Qcdiv r jac end) rhs cons;
  matvec := fun jac v => map (Qcmult jac) v
|}.

(** ** Example problems on the entrywise backend *)

Global Existing Instance Qc_scalars.
Global Existing Instance xnum_scalars.
Global Existing Instance entrywise_symbolic.
Global Existing Instance entrywise_numeric.

(** The line search parameters at their defaults, with [1.4] for the
    default [rebound] of [2**.5]. *)
Definition xminrelax : xnum := Some (1 # 10).
Definition xmaxrelax : xnum := Some (9 # 10).
Definition xrebound : xnum := Some (7 # 5).

Definition xconst (q : Q) (n : nat) : Array (eop xnum) := Node (EConst (repeat (Some q) n)) [].

(** The residual [2 u - 6] on two entries, the first one fixed at [5]. *)
Definition linear_residual : Integral (eop xnum) :=
  Integral_init
    (Node EAdd [Node (EScale (Some 2%Q)) [Argument (Str "u") [2]]; xconst (-6) 2])
    0 "gauss2".

Definition linear_constrain : option (constraint xnum) :=
  Some (CFloat [Some (Some 5%Q); None]).

(** The residual [u^3 - 2 u + 2], on which the Newton steps from [0]
    alternate between [0] and [1]. *)
Definition cubic_residual : Integral (eop xnum) :=
  Integral_init
    (Node EAdd
       [Node EMul [Argument (Str "u") [1];
                   Node EAdd [Node EMul [Argument (Str "u") [1]; Argument (Str "u") [1]];
                              xconst (-2) 1]];
        xconst 2 1])
    0 "gauss2".

(** The residual [1/u - 1], whose full Newton step from [2] lands on the
    pole at [0]. *)
Definition pole_residual : Integral (eop xnum) :=
  Integral_init (Node EAdd [Node EInv [Argument (Str "u") [1]]; xconst (-1) 1]) 0 "gauss2".

(** [next] of [newton('u', residual, lhs0, constrain, nrelax)] on the
    entrywise backend. *)
Definition xnewton (residual : Integral (eop xnum)) (lhs0 : list xnum)
    (constrain : option (constraint xnum)) (nrelax : option nat) (fuel : nat)
  : newton_state -> step newton_state (list xnum * xnum) * list (logmsg xnum) :=
  newton_next (V := list xnum) "u" residual (Some lhs0) constrain nrelax
    xminrelax xmaxrelax xrebound ∅ fuel.

(** The residual [u^2 - 4] on two entries over the exact rationals, the
    first entry fixed at [5]. *)
Definition square_residual : Integral (eop Qc) :=
  Integral_init
    (Node EAdd [Node EMul [Argument (Str "u") [2]; Argument (Str "u") [2]];
                Node (EConst [Q2Qc (-4); Q2Qc (-4)]) []])
    0 "gauss2".

Definition square_constrain : option (constraint Qc) :=
  Some (CFloat [Some (Q2Qc 5); None]).

Definition qnewton (residual : Integral (eop Qc)) (lhs0 : list Qc)
    (constrain : option (constraint Qc)) (nrelax : option nat) (fuel : nat)
  : newton_state -> step newton_state (list Qc * Qc) * list (logmsg Qc) :=
  newton_next (V := list Qc) "u" residual (Some lhs0) constrain nrelax
    (Q2Qc (1 # 10)) (Q2Qc (9 # 10)) (Q2Qc (7 # 5)) ∅ fuel.

(** The integral of [u] itself: the residual and the inertia of the scalar
    equation [du/dt = -u]. *)
Definition decay {F : Type} {SF : Scalars F} {EF : EqDecision F} : Integral (eop F) :=
  Integral_init (F := F) (Node (EScale (fofZ 1)) [Argument (Str "u") [1]]) 0 "gauss2".

(** ** [solve_linear] and [Integral.concatenate] *)

Section SolveLinear.
Context {F Op V : Type} {SF : Scalars F} {SY : Symbolic F Op} {NU : Numeric F Op V}.

(** [jac.solve(rhs)] of the matrix backend, without constraints: what
    [constrain=None] asks for. *)
Variable msolve_free : V -> list F -> list F.

Definition not_linear_msg : string := "problem is not linear".

(** [solve_linear(target, residual, constrain, arguments)] *)
Definition solve_linear (target : string) (residual : Integral Op)
    (constrain : option (list (option F))) (arguments : argmap F) : result (list F) :=
  jacobian ← Integral_derivative residual target;
  resolved ← _find_argument target [FIntegral residual];
  if contains jacobian resolved then Raise (ModelError not_linear_msg)
  else
    _ ← assert (bool_decide (arguments !! Str target = None)) target_defined;
    resolved ← _find_argument target [FIntegral residual];
    '(res, jac) ← multieval2 residual jacobian
        (arguments ∪ {[Str target := zeros_vec (ashape resolved)]});
    Ok (match constrain with
        | Some fixed => msolve jac (vneg (vec_of res)) fixed
        | None => msolve_free jac (vneg (vec_of res))
        end).

End SolveLinear.

Section Concatenate.
Context {F Op V : Type} {SY : Symbolic F Op} {NU : Numeric F Op V}.

(** [function.concatenate(integrands, axis=0)] of the symbolic backend. *)
Variable aconcatenate : list (Array Op) -> Array Op.

(** [shape[0]]: an empty shape has no first entry. *)
Definition shape0 (shape : list nat) : result nat :=
  match shape with
  | n :: _ => Ok n
  | [] => Raise (IndexError "tuple index out of range")
  end.

(** [sum(integral.shape[0] for integral in integrals)] *)
Fixpoint sum_shape0 (integrals : list (Integral Op)) : result nat :=
  match integrals with
  | [] => Ok 0
  | integral :: rest =>
      n ← shape0 (shape integral);
      m ← sum_shape0 rest;
      Ok (n + m)
  end.

(** [Integral.concatenate(integrals)].  The entries are set while the set
    of the keys is iterated over. *)
Definition concatenate (integrals : list (Integral Op)) : result (Integral Op) :=
  _ ← assert (forallb (fun integral =>
                 bool_decide (tail (shape integral) = tail (shape (default (empty []) (head integrals)))))
               (tail integrals)) "";
  n ← sum_shape0 integrals;
  first ← match integrals with
           | integral :: _ => Ok integral
           | [] => Raise (IndexError "list index out of range")
           end;
  Ok (mkIntegral
        (map (fun di => (di, aconcatenate (map (get_or_zeros di) integrals)))
             (set_order (flat_map (fun integral => keys (items integral)) integrals)))
        (n :: tail (shape first))).

End Concatenate.

(** ** A numeric backend with rational values

    Every array has one exact rational as its value, the sum and the
    product of arrays have the sum and the product of the values, and the
    quadrature of an integrand is its value. *)

Fixpoint svalue (arguments : argmap Qc) (a : Array (eop Qc)) {struct a} : Qc :=
  match a with
  | Argument n _ => hd (Q2Qc 0) (default [] (arguments !! n))
  | Node (EConst v) _ => hd (Q2Qc 0) v
  | Node EAdd [x; y] => (svalue arguments x + svalue arguments y)%Qc
  | Node EMul [x; y] => (svalue arguments x * svalue arguments y)%Qc
  | Node (EScale c) [x] => (svalue arguments x * c)%Qc
  | Node EInv [x] => (1 / svalue arguments x)%Qc
  | Node _ _ => Q2Qc 0
  end.

Definition scalar_numeric : Numeric Qc (eop Qc) Qc := {|
  vadd := Qcplus;
  vzero := Q2Qc 0;
  integrate := fun _ integrands arguments => map (svalue arguments) integrands;
  set_order := remove_dups;
  vec_of := fun v => [v];
  msolve := fun jac rhs cons =>
    zip_with (fun r c => match c with Some v => v | None => Qcdiv r jac end) rhs cons;
  matvec := fun jac v => map (Qcmult jac) v
|}.

(** ** Notions for the properties of [pseudotime] *)

Definition is_model_error (e : exn) : Prop :=
  match e with
  | ModelError _ => True
  | _ => False
  end.

(** The invariant of the loop of [pseudotime] for the initial iterate
    [l0]: the iterate has the length of the mask, the constraints of the
    update fix the masked entries at zero, and the masked entries of the
    iterate are those of [l0]. *)
Definition pframe_ok {F Op V : Type} {SF : Scalars F} (l0 : list F)
    (fr : pseudotime_frame (F := F) (Op := Op) (V := V)) : Prop :=
  length (pf_lhs fr) = length (pf_constrain fr) /\
  pf_zcons fr = zero_where_fixed (pf_constrain fr) /\
  forall i, pf_constrain fr !! i = Some true -> pf_lhs fr !! i = l0 !! i.

(** ** [optimize]

    [optimize(target, functional, lhs0=..., constrain=..., newtontol=...,
    arguments=...)] with [droptol] left at [None], for which [nandofs]
    is nowhere set.  The context that [log.title] opens around the call
    is left out. *)

(** What [optimize] hands to the log: the messages of [newton] and of
    [solve], and its own 'optimum: ...'. *)
Inductive optimize_msg (F : Type) : Type :=
| NewtonLog (m : logmsg F)
| InfoOptimum (value : F).
Arguments NewtonLog {F} m.
Arguments InfoOptimum {F} value.

Section Optimize.
Context {F Op V : Type} {SF : Scalars F} {SY : Symbolic F Op} {NU : Numeric F Op V}.

(** The float of a value without axes. *)
Variable scalar_of : V -> F.

Variables (target : string) (functional : Integral Op) (lhs0 : option (list F))
          (constrain : option (constraint F)) (newtontol : option F)
          (arguments : argmap F).

(** [numpy.isnan(x)]: NaN is the one number that is not below or equal to
    itself. *)
Definition isnan (x : F) : bool := negb (fle x x).

(** [f0, res, jac = Integral.multieval(functional, residual, jacobian, ...)] *)
Definition unpack3 (o : NpOut V) : result (V * V * V) :=
  match o with
  | NpRow [a; b; c] => Ok (a, b, c)
  | NpRow _ => Raise (ValueError "wrong number of values to unpack")
  | NpScalar _ => Raise (TypeError "cannot unpack non-iterable object")
  end.

(** The local variables of [optimize] after its first linear solve. *)
Record optimize_frame : Type := mkOFrame {
  of_arg : Array Op;
  of_lhs0 : list F;
  of_mask : list bool;          (* [constrain|nandofs] *)
  of_residual : Integral Op;
  of_jacobian : Integral Op;
  of_f0 : V;
  of_res : V;
  of_lhs : list F
}.

(** From the test of [constrain] up to
    [lhs = lhs0 - jac.solve(res, constrain=cons)]. *)
Definition optimize_first_solve (arg : Array Op) (lhs0 : list F) : result optimize_frame :=
  '(lhs0, constrain) ← normalize (ashape arg) lhs0 constrain;
  residual ← Integral_derivative functional target;
  jacobian ← Integral_derivative residual target;
  '(f0, res, jac) ← unpack3 (multieval [functional; residual; jacobian]
                               (arguments ∪ {[Str target := lhs0]}));
  let nandofs := repeat false (numel (shape residual)) in
  let mask := zip_with orb constrain nandofs in
  _ ← check_mask mask (zeros_vec (shape residual));
  let cons := zero_where_fixed mask in
  let lhs := vsub lhs0 (msolve jac (vec_of res) cons) in
  Ok (mkOFrame arg lhs0 mask residual jacobian f0 res lhs).

(** The body up to there. *)
Definition optimize_enter : result optimize_frame :=
  _ ← assert (bool_decide (arguments !! Str target = None)) target_defined;
  _ ← assert (bool_decide (length (shape functional) = 0)) "functional should be scalar";
  arg ← _find_argument target [FIntegral functional];
  lhs0 ← match lhs0 with
          | None => Ok (zeros_vec (ashape arg))
          | Some l =>
              _ ← assert (bool_decide ([length l] = ashape arg)) "invalid lhs0 argument";
              Ok l
          end;
  optimize_first_solve arg lhs0.

(** From the last assertion on; [lhs[nandofs] = numpy.nan] changes
    nothing. *)
Definition optimize_finish (fr : optimize_frame) (lhs : list F) (value : F)
    (l : list (optimize_msg F)) : outcome (list F) * list (optimize_msg F) :=
  if negb (existsb isnan (free (of_mask fr) lhs)) then
    (Returns lhs, l ++ [InfoOptimum value])
  else (Raises (AssertionError "optimization failed (forgot droptol?)"), l).

(** [fuel] bounds the loops of [newton] and of [solve]; the parameters of
    the line search are at the defaults of [newton]. *)
Definition optimize (fuel : nat) : outcome (list F) * list (optimize_msg F) :=
  match optimize_enter with
  | Raise e => (Raises e, [])
  | Ok fr =>
      if negb (contains (of_jacobian fr) (of_arg fr)) then
        let value :=
          fadd (scalar_of (of_f0 fr))
               (fmul fhalf (dot (vec_of (of_res fr)) (vsub (of_lhs fr) (of_lhs0 fr)))) in
        optimize_finish fr (of_lhs fr) value []
      else
        match newtontol with
        | None =>
            (Raises (AssertionError
               "newton tolerance `newtontol` must be specified for nonlinear problems"),
             [])
        | Some tol =>
            match newton_solve fuel target (of_residual fr) (Some (of_lhs fr))
                    (Some (CBool (of_mask fr))) None
                    (fdiv (fofZ 1) (fofZ 10)) (fdiv (fofZ 9) (fofZ 10)) (fsqrt (fofZ 2))
                    arguments tol with
            | (Returns lhs, l) =>
                optimize_finish fr lhs
                  (scalar_of (eval functional (arguments ∪ {[Str target := lhs]})))
                  (map NewtonLog l)
            | (Raises e, l) => (Raises e, map NewtonLog l)
            | (NoFuel, l) => (NoFuel, map NewtonLog l)
            end
        end
  end.

End Optimize.

(** The functional [u^3 - 12 u] on two entries over the exact rationals,
    declared scalar: the entrywise backend keeps the terms of the sum over
    the entries apart. *)
Definition cubic_functional : Integral (eop Qc) :=
  mkIntegral
    [((0, "gauss2"),
      Node EAdd
        [Node EMul [Argument (Str "u") [2];
                    Node EMul [Argument (Str "u") [2]; Argument (Str "u") [2]]];
         Node (EScale (Q2Qc (-12))) [Argument (Str "u") [2]]])]
    [].

(** * The log module

    A Python string is the string of the bytes of its UTF-8 encoding.
    Lengths and slices count bytes where Python counts code points; the
    one slice of the module is at the start of a joined part, where the
    two agree. *)

Definition LEVELS : list string :=
  ["path"; "error"; "warning"; "user"; "info"; "progress"; "debug"].

(** [l[start:]] for a Python integer [start]: a negative one counts from
    the end and is cut off at the start of the list. *)
Definition slice_from {A : Type} (start : Z) (l : list A) : list A :=
  drop (Z.to_nat (if (start <? 0)%Z then Z.max (Z.of_nat (length l) + start) 0 else start)) l.

(** [s[:n]] and [s[n:]] for a string and [0 <= n]. *)
Fixpoint str_take (n : nat) (s : string) : string :=
  match n, s with
  | Datatypes.S n, String c s => String c (str_take n s)
  | _, _ => EmptyString
  end.

Fixpoint str_drop (n : nat) (s : string) : string :=
  match n, s with
  | Datatypes.S n, String c s => str_drop n s
  | _, _ => s
  end.

Definition newline : string := String (Ascii.ascii_of_nat 10) EmptyString.
Definition escape : string := String (Ascii.ascii_of_nat 27) EmptyString.

(** ** [ContextLog]

    The state of a logger that keeps track of its contexts: the list
    [_context] of the base class and the attributes [fields] that a
    subclass adds. *)
Record ContextLog (E : Type) : Type := mkContextLog {
  _context : list string;
  fields : E
}.
Arguments mkContextLog {E} _ _.
Arguments _context {E} _.
Arguments fields {E} _.

Section ContextLogMethods.
Context {E : Type}.

(** [self._context.append(title)] *)
Definition _push_context (title : string) (self : ContextLog E) : ContextLog E :=
  mkContextLog (_context self ++ [title]) (fields self).

(** [self._context.pop()] *)
Definition _pop_context (self : ContextLog E) : result unit * ContextLog E :=
  match _context self with
  | [] => (Raise (IndexError "pop from empty list"), self)
  | _ :: _ => (Ok tt, mkContextLog (removelast (_context self)) (fields self))
  end.

(** [with self.context(title): body]: the context is pushed, the body is
    run, and the context is popped whether the body returns or raises; an
    exception of the pop replaces the outcome of the body. *)
Definition with_context {A : Type} (title : string)
    (body : ContextLog E -> result A * ContextLog E) (self : ContextLog E)
  : result A * ContextLog E :=
  let '(r, self) := body (_push_context title self) in
  match _pop_context self with
  | (Ok _, self) => (r, self)
  | (Raise e, self) => (Raise e, self)
  end.

End ContextLogMethods.

(** ** [StdoutLog] and [RichOutputLog]: the attribute is the text written
    to [stream] so far. *)
Definition StdoutLog : Type := ContextLog string.

Definition StdoutLog_mkstr (self : StdoutLog) (level : string) (text : option string)
  : string :=
  String.concat " > " (_context self ++ match text with Some t => [t] | None => [] end).

(** [StdoutLog.write], for the method [_mkstr] of the class of [self] and
    the value [verbose] of the property of that name, [None] when it is
    not set. *)
Definition write_with (_mkstr : StdoutLog -> string -> option string -> string)
    (verbose : option Z) (self : StdoutLog) (level : string) (text : option string)
    (endl : bool) : StdoutLog :=
  let verbose := default (Z.of_nat (length LEVELS)) verbose in
  if bool_decide (level ∉ slice_from verbose LEVELS) then
    let s := _mkstr self level text in
    mkContextLog (_context self) (fields self +:+ (if endl then s +:+ newline else s))
  else self.

Definition StdoutLog_write : option Z -> StdoutLog -> string -> option string -> bool
                             -> StdoutLog :=
  write_with StdoutLog_mkstr.

(** [RichOutputLog.cmap], with [None] for the KeyError. *)
Definition cmap (level : string) : option (nat * nat) :=
  if String.eqb level "path" then Some (2, 1)
  else if String.eqb level "error" then Some (1, 1)
  else if String.eqb level "warning" then Some (1, 0)
  else if String.eqb level "user" then Some (3, 0)
  else None.

Definition RichOutputLog_mkstr (self : StdoutLog) (level : string) (text : option string)
  : string :=
  let '(string, n) :=
    match text with
    | Some text =>
        let string := String.concat " · " (_context self ++ [text]) in
        (string, String.length string - String.length text)
    | None =>
        let string := String.concat " · " (_context self) in
        (string, String.length string)
    end in
  match cmap level with
  | None =>
      escape +:+ "[1;30m" +:+ str_take n string +:+ escape +:+ "[0m" +:+ str_drop n string
  | Some (colorid, boldid) =>
      escape +:+ "[1;30m" +:+ str_take n string +:+ escape +:+ "[" +:+ pretty boldid
        +:+ ";3" +:+ pretty colorid +:+ "m" +:+ str_drop n string +:+ escape +:+ "[0m"
  end.

Definition RichOutputLog_write : option Z -> StdoutLog -> string -> option string -> bool
                                 -> StdoutLog :=
  write_with RichOutputLog_mkstr.

(** ** [CaptureLog]: the captured [lines] and the text written to
    [stream]. *)
Record CaptureFields : Type := mkCapture {
  stream : string;
  lines : list string
}.

Definition CaptureLog : Type := ContextLog CaptureFields.

(** [CaptureLog.write]: the line is captured before [level[0]] is looked
    up, which fails on an empty level. *)
Definition CaptureLog_write (self : CaptureLog) (level : string) (text : option string)
  : result unit * CaptureLog :=
  let self :=
    mkContextLog (_context self)
      (mkCapture (stream (fields self))
         (lines (fields self) ++
          [String.concat " > "
             (_context self ++ match text with Some t => [t] | None => [] end)])) in
  match level with
  | EmptyString => (Raise (IndexError "string index out of range"), self)
  | String c _ =>
      (Ok tt,
       mkContextLog (_context self)
         (mkCapture (stream (fields self) +:+ String c EmptyString) (lines (fields self))))
  end.

Definition captured (self : CaptureLog) : string :=
  String.concat newline (lines (fields self)).

(** ** Programs that log

    What a function does to the logger: it writes, and it runs a block
    inside [with log.context(title)]. *)
Inductive call : Type :=
| Write (level : string) (text : option string)
| With (title : string) (body : list call).

Section Run.
Context {E : Type}.
Variable write : ContextLog E -> string -> option string -> result unit * ContextLog E.

(** The calls in sequence, up to the first one that raises. *)
Fixpoint run (c : call) (self : ContextLog E) {struct c} : result unit * ContextLog E :=
  match c with
  | Write level text => write self level text
  | With title body =>
      with_context title
        ((fix run_block (cs : list call) (self : ContextLog E)
            : result unit * ContextLog E :=
            match cs with
            | [] => (Ok tt, self)
            | c :: cs =>
                match run c self with
                | (Ok _, self) => run_block cs self
                | (Raise e, self) => (Raise e, self)
                end
            end) body)
        self
  end.

Fixpoint run_block (cs : list call) (self : ContextLog E) : result unit * ContextLog E :=
  match cs with
  | [] => (Ok tt, self)
  | c :: cs =>
      match run c self with
      | (Ok _, self) => run_block cs self
      | (Raise e, self) => (Raise e, self)
      end
  end.

End Run.

(** The levels of the writes of a program. *)
Fixpoint levels (c : call) : list string :=
  match c with
  | Write level _ => [level]
  | With _ body => flat_map levels body
  end.

(** * Properties *)

(** ** The argument resolver *)

Section FindArgumentProps.
Context {Op : Type}.

Lemma Array_nested_ind (P : Array Op -> Prop) :
  (forall n s, P (Argument n s)) ->
  (forall op args, Forall P args -> P (Node op args)) ->
  forall a, P a.
Proof.
  intros HA HN. fix IH 1. intros [n s|op args].
  - apply HA.
  - apply HN. induction args as [|x args IHargs]; constructor; auto.
Qed.

Lemma first_named_app name (l l' : list (Array Op)) :
  first_named name (l ++ l') =
  match first_named name l with
  | Some t => Some t
  | None => first_named name l'
  end.
Proof.
  unfold first_named. rewrite List.filter_app.
  destruct (List.filter (is_argument_named name) l); reflexivity.
Qed.

Lemma edit_args_spec name (args : list (Array Op)) :
  Forall (fun a => find name a =
                   match first_named name (leaves a) with
                   | Some t => Found t
                   | None => Returned a
                   end) args ->
  edit_args (find name) args =
  match first_named name (flat_map leaves args) with
  | Some t => inl t
  | None => inr args
  end.
Proof.
  induction 1 as [|a args Ha _ IH]; [reflexivity|].
  change (edit_args (find name) (a :: args)) with
    (match find name a with
     | Found t => inl t
     | Returned a' =>
         match edit_args (find name) args with
         | inl t => inl t
         | inr l'' => inr (a' :: l'')
         end
     end).
  cbn [flat_map]. rewrite first_named_app, Ha.
  destruct (first_named name (leaves a)); [reflexivity|].
  rewrite IH. destruct (first_named name (flat_map leaves args)); reflexivity.
Qed.

Lemma find_spec name (a : Array Op) :
  find name a =
  match first_named name (leaves a) with
  | Some t => Found t
  | None => Returned a
  end.
Proof.
  induction a as [n s|op args IH] using Array_nested_ind.
  - cbn. unfold first_named. cbn. destruct (bool_decide (n = Str name)); reflexivity.
  - cbn [find is_argument_named edit leaves].
    rewrite (edit_args_spec _ _ IH).
    destruct (first_named name (flat_map leaves args)); reflexivity.
Qed.

Lemma edit_find_spec name (func : Array Op) :
  edit func (find name) =
  match first_named name (visited func) with
  | Some t => Found t
  | None => Returned func
  end.
Proof.
  destruct func as [n s|op args]; [reflexivity|].
  cbn [edit visited]. rewrite edit_args_spec.
  - destruct (first_named name (flat_map leaves args)); reflexivity.
  - apply Forall_forall. intros a _. apply find_spec.
Qed.

Lemma find_loop_spec name (fs : list (Array Op)) :
  find_loop name fs =
  match first_named name (flat_map visited fs) with
  | Some t => Ok t
  | None => Raise (ValueError (not_found_msg name))
  end.
Proof.
  induction fs as [|func fs IH]; [reflexivity|].
  cbn [find_loop flat_map]. rewrite first_named_app, edit_find_spec.
  destruct (first_named name (visited func)); [reflexivity|apply IH].
Qed.

(** C9 (as the code has it): the resolver returns the first argument
    node with the requested name in the order of the traversal, whatever
    shapes the later nodes with that name declare, and raises the
    ValueError "target ... not found" exactly when no visited node has
    the name.  No ambiguity is ever signalled. *)
Theorem find_argument_first_match (name : string) (funcs : list (FuncArg Op)) :
  _find_argument name funcs =
  match candidates name funcs with
  | t :: _ => Ok t
  | [] => Raise (ValueError (not_found_msg name))
  end.
Proof.
  unfold _find_argument, candidates. rewrite find_loop_spec. unfold first_named.
  destruct (List.filter _ _); reflexivity.
Qed.

End FindArgumentProps.

(** C9 fails as stated: the name [x] is declared with the shapes [2] and
    [3] in the input, and the resolver returns the first declaration
    instead of raising. *)
Lemma find_argument_ambiguous_returns_first :
  candidates "x" [FArray (Node "add" [Node "sin" [Argument (Str "x") [2]];
                                      Argument (Str "x") [3]])]
    = [Argument (Str "x") [2]; Argument (Str "x") [3]] /\
  _find_argument "x" [FArray (Node "add" [Node "sin" [Argument (Str "x") [2]];
                                          Argument (Str "x") [3]])]
    = Ok (Argument (Str "x") [2]).
Proof. split; reflexivity. Qed.

(** ** The algebra of deferred integrals *)

Section DictProps.
Context {A : Type}.
Implicit Types (d : list (key * A)) (k : key).

Lemma dict_get_set_eq k v d : dict_get k (dict_set k v d) = Some v.
Proof.
  induction d as [|[k' v'] d IH]; cbn.
  - rewrite bool_decide_eq_true_2; reflexivity.
  - destruct (bool_decide (k' = k)) eqn:E; cbn; rewrite E; [reflexivity|apply IH].
Qed.

Lemma dict_get_set_ne k k' v d : k <> k' -> dict_get k' (dict_set k v d) = dict_get k' d.
Proof.
  intros Hne. induction d as [|[k0 v0] d IH]; cbn.
  - rewrite bool_decide_eq_false_2; [reflexivity|assumption].
  - destruct (bool_decide (k0 = k)) eqn:E; cbn.
    + apply bool_decide_eq_true_1 in E. subst k0.
      rewrite bool_decide_eq_false_2; [reflexivity|assumption].
    + destruct (bool_decide (k0 = k')); [reflexivity|apply IH].
Qed.

Lemma dict_get_None k d : dict_get k d = None <-> k ∉ keys d.
Proof.
  induction d as [|[k0 v0] d IH]; cbn.
  - split; [intros _; apply not_elem_of_nil|reflexivity].
  - rewrite not_elem_of_cons. case_bool_decide as E.
    + split; [discriminate|]. intros [? _]. congruence.
    + rewrite IH. split; [intros ?; split; [congruence|assumption]|intros [_ ?]; assumption].
Qed.

Lemma dict_set_fresh k v d : dict_get k d = None -> dict_set k v d = d ++ [(k, v)].
Proof.
  induction d as [|[k0 v0] d IH]; cbn; [reflexivity|].
  destruct (bool_decide (k0 = k)); [discriminate|]. intros E. rewrite IH; auto.
Qed.

End DictProps.

Section IntegralAlgebra.
Context {F Op : Type} {SY : Symbolic F Op}.

Lemma add_loop_get (l acc : list (key * Array Op)) (k : key) :
  NoDup (keys l) ->
  dict_get k (fold_left add_item l acc) = sum_entry (dict_get k acc) (dict_get k l).
Proof.
  revert acc. induction l as [|[k0 e0] l IH]; intros acc Hnd; cbn [fold_left].
  - cbn. destruct (dict_get k acc); reflexivity.
  - cbn in Hnd. apply NoDup_cons in Hnd as [Hk0 Hnd]. rewrite (IH _ Hnd).
    cbn [dict_get]. unfold add_item; cbn [fst snd]. case_bool_decide as E.
    + subst k0. apply dict_get_None in Hk0. rewrite Hk0.
      destruct (dict_get k acc) as [x|]; rewrite dict_get_set_eq; reflexivity.
    + destruct (dict_get k0 acc) as [x|]; rewrite dict_get_set_ne by assumption;
        reflexivity.
Qed.

Lemma add_loop_fresh (l acc : list (key * Array Op)) :
  NoDup (keys (acc ++ l)) -> fold_left add_item l acc = acc ++ l.
Proof.
  revert acc. induction l as [|[k0 e0] l IH]; intros acc Hnd; cbn [fold_left].
  - symmetry. apply app_nil_r.
  - assert (Hget : dict_get k0 acc = None).
    { apply dict_get_None. unfold keys in *. rewrite fmap_app in Hnd.
      apply NoDup_app in Hnd as (_ & Hdis & _). intros Hin.
      apply (Hdis _ Hin). cbn. left. }
    unfold add_item at 2; cbn [fst snd]. rewrite Hget, (dict_set_fresh _ _ _ Hget).
    rewrite IH; rewrite <- app_assoc; [reflexivity|exact Hnd].
Qed.

(** C6: for integrals [a] and [b] of equal shape, [a + b] has under every
    key the symbolic sum of the two integrands when both operands have
    the key, the integrand of the one operand that has it otherwise, and
    no entry when neither has it; and [Integral.empty(shape) + x] is [x]
    itself for every integral [x] of that shape.  The keys of a dict are
    distinct. *)
Theorem Integral_add_union (a b x : Integral Op) :
  shape a = shape b ->
  NoDup (keys (items b)) ->
  NoDup (keys (items x)) ->
  (exists c, Integral_add a b = Ok c /\ shape c = shape a /\
     forall k, dict_get k (items c) =
               sum_entry (dict_get k (items a)) (dict_get k (items b))) /\
  Integral_add (empty (shape x)) x = Ok x.
Proof.
  intros Hshape Hb Hx. split.
  - unfold Integral_add, assert. rewrite bool_decide_eq_true_2 by assumption. cbn.
    eexists. split; [reflexivity|]. split; [reflexivity|].
    intros k. cbn. apply add_loop_get, Hb.
  - unfold Integral_add, assert, empty. cbn.
    rewrite bool_decide_eq_true_2 by reflexivity. cbn.
    rewrite add_loop_fresh by exact Hx. destruct x; reflexivity.
Qed.

End IntegralAlgebra.

(** C6 on two integrals over the domains 0 and 1 that share the key of
    domain 0. *)
Lemma Integral_add_union_witness :
  (exists c,
     Integral_add
       (mkIntegral [((0, "gauss2"), Node (EScale (Some 2%Q)) [Argument (Str "u") [1]])] [1])
       (mkIntegral [((1, "gauss2"), xconst 1 1); ((0, "gauss2"), xconst 3 1)] [1])
     = Ok c /\
     shape c = [1] /\
     forall k,
       dict_get k (items c) =
       sum_entry
         (dict_get k [((0, "gauss2"), Node (EScale (Some 2%Q)) [Argument (Str "u") [1]])])
         (dict_get k [((1, "gauss2"), xconst 1 1); ((0, "gauss2"), xconst 3 1)])) /\
  Integral_add (empty [1])
    (mkIntegral [((1, "gauss2"), xconst 1 1); ((0, "gauss2"), xconst 3 1)] [1])
  = Ok (mkIntegral [((1, "gauss2"), xconst 1 1); ((0, "gauss2"), xconst 3 1)] [1]).
Proof.
  apply (Integral_add_union
           (mkIntegral [((0, "gauss2"), Node (EScale (Some 2%Q)) [Argument (Str "u") [1]])] [1])
           (mkIntegral [((1, "gauss2"), xconst 1 1); ((0, "gauss2"), xconst 3 1)] [1])
           (mkIntegral [((1, "gauss2"), xconst 1 1); ((0, "gauss2"), xconst 3 1)] [1])).
  - reflexivity.
  - apply (bool_decide_unpack _). vm_compute. exact Logic.I.
  - apply (bool_decide_unpack _). vm_compute. exact Logic.I.
Defined.

(** ** The Newton iterator *)

Ltac unfold_bind := unfold mbind, result_bind, rbind, assert in *.

Lemma lookup_repeat {A : Type} (x : A) (n i : nat) :
  i < n -> repeat x n !! i = Some x.
Proof.
  revert i. induction n as [|n IH]; intros [|i] Hi; cbn; try lia; [reflexivity|].
  apply IH. lia.
Qed.

Section NewtonProps.
Context {F Op V : Type} {SF : Scalars F} {SY : Symbolic F Op} {NU : Numeric F Op V}.

Lemma set_order_nonempty (l : list key) :
  set_order l ≡ₚ remove_dups l -> l <> [] -> set_order l <> [].
Proof.
  intros Hperm Hl Hnil. rewrite Hnil in Hperm. apply Permutation_nil_l in Hperm.
  destruct l as [|k l]; [congruence|].
  assert (Hin : k ∈ remove_dups (k :: l)) by (apply elem_of_remove_dups; left).
  rewrite <- Hperm in Hin. by apply elem_of_nil in Hin.
Qed.

Lemma fold_zip_length (n : nat) (rs : list (list V)) (r : list V) :
  Forall (fun r => length r = n) rs -> length r = n ->
  length (fold_left (zip_with vadd) rs r) = n.
Proof.
  intros Hrs. revert r. induction Hrs as [|x rs Hx _ IH]; intros r Hr; cbn; [exact Hr|].
  apply IH. rewrite length_zip_with, Hr, Hx. apply Nat.min_id.
Qed.

(** With a key to integrate over, [multieval] of two integrals gives a row
    of two values. *)
Lemma multieval_pair (residual jacobian : Integral Op) (arguments : argmap F) :
  (forall di l a, length (integrate di l a) = length l) ->
  (forall l, set_order l ≡ₚ remove_dups l) ->
  items residual <> [] ->
  exists res jac, multieval [residual; jacobian] arguments = NpRow [res; jac].
Proof.
  intros Hlen Hord Hne. unfold multieval.
  pose proof (set_order_nonempty
    (flat_map (fun integral => keys (items integral)) [residual; jacobian]) (Hord _)) as Hk.
  destruct (set_order _) as [|k ks].
  - exfalso. apply Hk; [|reflexivity]. cbn. destruct (items residual); [congruence|discriminate].
  - cbn [map np_sum_rows].
    assert (Hl : length (fold_left (zip_with vadd)
        (map (fun di => integrate di (map (get_or_zeros di) [residual; jacobian]) arguments) ks)
        (integrate k (map (get_or_zeros k) [residual; jacobian]) arguments)) = 2).
    { apply fold_zip_length; [|by rewrite Hlen].
      apply Forall_forall. intros r Hr. apply list_elem_of_fmap in Hr as (di & -> & _).
      by rewrite Hlen. }
    destruct (fold_left _ _ _) as [|a [|b [|c l]]]; try discriminate. eauto.
Qed.

Lemma normalize_lengths (l l' : list F) (constrain : option (constraint F))
    (shp : list nat) (m : list bool) :
  normalize shp l constrain = Ok (l', m) -> length l = numel shp ->
  length l' = length l /\ length m = length l.
Proof.
  intros Hn Hs. destruct constrain as [[mask|c]|]; cbn in Hn; unfold_bind.
  - case_bool_decide as E; [|discriminate]. injection Hn as <- <-.
    split; [reflexivity|]. subst shp. cbn in Hs. lia.
  - case_bool_decide as E; [|discriminate]. injection Hn as <- <-.
    subst shp. cbn in Hs.
    unfold choose_isnan, not_isnan. rewrite length_zip_with, length_map. lia.
  - injection Hn as <- <-. rewrite repeat_length. split; lia.
Qed.

End NewtonProps.

Section NewtonSteps.
Context {F Op V : Type} {SF : Scalars F} {SY : Symbolic F Op} {NU : Numeric F Op V}.

Variables (target : string) (residual : Integral Op) (lhs0 : option (list F))
          (constrain : option (constraint F)) (nrelax : option nat)
          (minrelax maxrelax rebound : F) (arguments : argmap F).

Local Abbreviation prelude := (newton_prelude target residual lhs0 constrain arguments).
Local Abbreviation next :=
  (newton_next target residual lhs0 constrain nrelax minrelax maxrelax rebound arguments).
Local Abbreviation body := (ls_body target residual nrelax minrelax maxrelax arguments).
Local Abbreviation search := (linesearch target residual nrelax minrelax maxrelax arguments).

(** What the checks at the entry of [newton] establish. *)
Lemma newton_prelude_inv (t : Array Op) (l0 : list F) (m : list bool) (J : Integral Op) :
  prelude = Ok (t, l0, m, J) ->
  items residual <> [] /\
  length m = length l0 /\
  normalize (shape residual) (default (zeros_vec (shape residual)) lhs0) constrain
    = Ok (l0, m).
Proof.
  unfold newton_prelude. unfold_bind. intros Hp.
  case_bool_decide as Harg; [|discriminate].
  destruct (_find_argument target [FIntegral residual]) as [t'|] eqn:Hfind; [|discriminate].
  assert (Hitems : items residual <> []).
  { intros Hnil. unfold _find_argument, funcs_, values in Hfind. cbn in Hfind.
    rewrite Hnil in Hfind. discriminate. }
  set (l := default (zeros_vec (shape residual)) lhs0).
  assert (Hl : length l = numel (shape residual) /\
               match normalize (shape residual) l constrain with
               | Ok (l0', m') =>
                   match Integral_derivative residual target with
                   | Ok J' => Ok (t', l0', m', J')
                   | Raise e => Raise e
                   end
               | Raise e => Raise e
               end = Ok (t, l0, m, J)).
  { subst l. destruct lhs0 as [l|]; cbn in Hp |- *.
    - case_bool_decide as Hs; [|discriminate]. split.
      + rewrite <- Hs. cbn. lia.
      + destruct (normalize _ l constrain) as [[? ?]|]; exact Hp.
    - split; [apply repeat_length|].
      destruct (normalize _ _ constrain) as [[? ?]|]; exact Hp. }
  destruct Hl as [Hlen Hn].
  destruct (normalize (shape residual) l constrain) as [[l0' m']|] eqn:Hnorm; [|discriminate].
  destruct (Integral_derivative residual target) as [J'|]; [|discriminate].
  injection Hn as -> -> -> ->.
  destruct (normalize_lengths _ _ _ _ _ Hnorm Hlen) as [Hl0 Hm].
  split; [exact Hitems|]. split; [congruence|reflexivity].
Qed.

(** C1: when the Jacobian of the residual does not contain the target,
    the first [next] yields the constrained solve of [jac x = -res], with
    the residual and the Jacobian evaluated at a zero target and the
    fixed entries taken from the initial iterate, together with the
    residual norm [0]; the second [next] ends the generator.  The checks
    at the entry of [newton] are assumed to pass, the quadrature to
    return one value per integrand and a set to iterate over its distinct
    elements. *)
Theorem newton_linear_shortcut (t : Array Op) (l0 : list F) (m : list bool)
    (J : Integral Op) (fuel : nat) :
  (forall di l a, length (integrate di l a) = length l) ->
  (forall l, set_order l ≡ₚ remove_dups l) ->
  prelude = Ok (t, l0, m, J) ->
  contains J t = false ->
  exists res jac,
    multieval [residual; J] (arguments ∪ {[Str target := zeros_vec (ashape t)]})
      = NpRow [res; jac] /\
    next fuel NStart
      = (Yield (msolve jac (vneg (vec_of res)) (nan_where_free m l0), fofZ 0) NLinear,
         [InfoLinear]) /\
    next fuel NLinear = (StopIteration, []).
Proof.
  intros Hlen Hord Hp Hlin.
  destruct (newton_prelude_inv _ _ _ _ Hp) as (Hitems & Hm & _).
  destruct (multieval_pair residual J
              (arguments ∪ {[Str target := zeros_vec (ashape t)]}) Hlen Hord Hitems)
    as (res & jac & Hme).
  exists res, jac. split; [exact Hme|]. split; [|reflexivity].
  cbn [newton_next]. unfold newton_start. rewrite Hp, Hlin. cbn [negb].
  unfold newton_linear, multieval2. rewrite Hme. cbn [unpack2]. unfold_bind.
  unfold check_mask. rewrite bool_decide_eq_true_2 by exact Hm. reflexivity.
Qed.

Lemma linesearch_after (fr : newton_frame) (dlhs : list F) (k : nat) :
  forall (irelax : nat) (relax relax_k : F) (fuel : nat),
  ls_after target residual nrelax minrelax maxrelax arguments fr dlhs k irelax relax
    = Some relax_k ->
  exists l, search (k + fuel) fr dlhs irelax relax =
            (let '(o, l') := search fuel fr dlhs (irelax + k) relax_k in (o, l ++ l')).
Proof.
  induction k as [|k IH]; intros irelax relax relax_k fuel Hafter; cbn in Hafter.
  - injection Hafter as <-. exists []. rewrite Nat.add_0_r. cbn.
    destruct (search fuel fr dlhs irelax relax); reflexivity.
  - destruct (body fr dlhs irelax relax) as [[relax'| | |] l] eqn:Hbody; try discriminate.
    destruct (IH _ _ _ fuel Hafter) as [l' Hl']. exists (l ++ l').
    cbn [Nat.add linesearch]. rewrite Hbody, Hl'.
    replace (irelax + Datatypes.S k) with (Datatypes.S irelax + k) by lia.
    destruct (search fuel fr dlhs (Datatypes.S irelax + k) relax_k).
    by rewrite app_assoc.
Qed.

(** C2: when the line search of a resumed iterator reaches the pass
    [nrelax] and the residual norm at that trial exceeds the norm of the
    current iterate, [next] logs the warning last and ends in
    [StopIteration] instead of raising; [solve], which asks for this
    [next] because the tolerance is not met and the iteration bound not
    reached, then raises the ModelError "generator stopped before
    reaching target tolerance". *)
Theorem newton_diverged_stops (fr : newton_frame) (n fuel : nat) (relax_n : F)
    (res jac : V) :
  let dlhs := vneg (msolve (fr_jac fr) (vec_of (fr_res fr)) (fr_zcons fr)) in
  let relax := pymin (fmul (fr_relax fr) rebound) (fofZ 1) in
  nrelax = Some n ->
  ls_after target residual nrelax minrelax maxrelax arguments fr dlhs n 0 relax
    = Some relax_n ->
  multieval2 residual (fr_jacobian fr)
    (arguments ∪ {[Str target := axpy (fr_lhs fr) relax_n dlhs]}) = Ok (res, jac) ->
  flt (fr_resnorm fr) (norm (free (fr_constrain fr) (vec_of res))) = true ->
  n < fuel ->
  (exists l, next fuel (NLoop fr) = (StopIteration, l ++ [WarnDecrease])) /\
  (forall (tol : F) (maxiter : option nat) (inewton fuel' : nat),
     flt tol (fr_resnorm fr) = true ->
     reached inewton maxiter = false ->
     exists l,
       solve_loop (next fuel) tol maxiter (Datatypes.S fuel') (NLoop fr)
                  (fr_lhs fr) (fr_resnorm fr) inewton
       = (Raises (ModelError stopped_msg), l)).
Proof.
  intros dlhs relax Hn Hafter Hme Hgt Hfuel.
  assert (Hnext : exists l, next fuel (NLoop fr) = (StopIteration, l ++ [WarnDecrease])).
  { destruct (linesearch_after fr dlhs n 0 relax relax_n (fuel - n) Hafter) as [l Hl].
    replace (n + (fuel - n)) with fuel in Hl by lia.
    exists l. cbn [newton_next]. unfold newton_resume. fold dlhs relax. rewrite Hl.
    destruct (fuel - n) as [|f] eqn:Hf; [lia|]. cbn [linesearch Nat.add].
    unfold ls_body. rewrite Hme, Hn. cbn [reached].
    rewrite bool_decide_eq_true_2 by reflexivity. rewrite Hgt. reflexivity. }
  split; [exact Hnext|].
  intros tol maxiter inewton fuel' Htol Hmax. destruct Hnext as [l Hl].
  eexists. cbn [solve_loop]. rewrite Htol, Hmax, Hl. reflexivity.
Qed.

(** C8 (as the code has it): while the pass count is below [nrelax], a
    trial whose residual norm is not finite neither raises nor ends the
    generator: the relaxation is multiplied by [max(0, minrelax)], which
    is [minrelax] for a positive [minrelax], and the line search goes on
    with the next pass. *)
Theorem newton_nonfinite_retries (fr : newton_frame) (dlhs : list F) (irelax : nat)
    (relax : F) (res jac : V) (fuel : nat) :
  multieval2 residual (fr_jacobian fr)
    (arguments ∪ {[Str target := axpy (fr_lhs fr) relax dlhs]}) = Ok (res, jac) ->
  isfinite (norm (free (fr_constrain fr) (vec_of res))) = false ->
  reached irelax nrelax = false ->
  flt (fofZ 0) minrelax = true ->
  body fr dlhs irelax relax
    = (LsContinue (fmul relax minrelax),
       [InfoEvalFailed (norm (free (fr_constrain fr) (vec_of res)))]) /\
  search (Datatypes.S fuel) fr dlhs irelax relax
    = (let '(o, l) := search fuel fr dlhs (Datatypes.S irelax) (fmul relax minrelax) in
       (o, InfoEvalFailed (norm (free (fr_constrain fr) (vec_of res))) :: l)).
Proof.
  intros Hme Hnan Hreach Hmin.
  assert (Hbody : body fr dlhs irelax relax
    = (LsContinue (fmul relax minrelax),
       [InfoEvalFailed (norm (free (fr_constrain fr) (vec_of res)))])).
  { unfold ls_body. rewrite Hme, Hreach, Hnan. cbn [negb]. unfold pymax.
    rewrite Hmin. reflexivity. }
  split; [exact Hbody|]. cbn [linesearch]. rewrite Hbody. reflexivity.
Qed.

Section Constraints.

(** The arithmetic is exact, and the matrix backend returns a vector of
    the length of the constraints that has the fixed values in it. *)
Hypothesis exact_update : forall x r : F, fadd x (fmul r (fneg (fofZ 0))) = x.
Hypothesis msolve_length :
  forall (jac : V) rhs cons, length (msolve jac rhs cons) = length cons.
Hypothesis msolve_fixed :
  forall (jac : V) rhs cons i v,
    cons !! i = Some (Some v) -> msolve jac rhs cons !! i = Some v.

Lemma nan_where_free_fixed (m : list bool) (v : list F) (i : nat) (x : F) :
  m !! i = Some true -> v !! i = Some x -> nan_where_free m v !! i = Some (Some x).
Proof.
  intros Hm Hv. unfold nan_where_free. rewrite lookup_zip_with, Hm. cbn.
  rewrite Hv. reflexivity.
Qed.

Lemma newton_linear_ok (t : Array Op) (l0 : list F) (m : list bool) (J : Integral Op)
    (lhs : list F) (r : F) :
  newton_linear target residual arguments t l0 m J = Ok (lhs, r) ->
  forall i, m !! i = Some true -> lhs !! i = l0 !! i.
Proof using msolve_fixed.
  unfold newton_linear. unfold_bind. intros Hlin i Hi.
  destruct (multieval2 _ _ _) as [[res jac]|]; [|discriminate].
  unfold check_mask in Hlin. case_bool_decide as Hm; [|discriminate].
  injection Hlin as <- _.
  destruct (l0 !! i) as [x|] eqn:Hx.
  - apply msolve_fixed, nan_where_free_fixed; assumption.
  - apply lookup_lt_Some in Hi. apply lookup_ge_None in Hx. lia.
Qed.

Lemma newton_enter_ok (t : Array Op) (l0 : list F) (m : list bool) (J : Integral Op)
    (fr : newton_frame) :
  newton_enter target residual arguments t l0 m J = Ok fr ->
  length m = length l0 ->
  frame_ok l0 fr /\ fr_constrain fr = m.
Proof.
  unfold newton_enter. unfold_bind. intros Hen Hm.
  destruct (multieval2 _ _ _) as [[res jac]|]; [|discriminate].
  unfold check_mask in Hen. case_bool_decide as Hz; [|discriminate].
  injection Hen as <-. rewrite repeat_length in Hz. unfold frame_ok. cbn.
  repeat split; [congruence|by rewrite Hz].
Qed.

Lemma newton_resume_ok (l0 : list F) (fr : newton_frame) (fuel : nat)
    (y : list F * F) (st : newton_state) (l : list (logmsg F)) :
  frame_ok l0 fr ->
  next fuel (NLoop fr) = (Yield y st, l) ->
  exists fr', st = NLoop fr' /\ y.1 = fr_lhs fr' /\
              fr_constrain fr' = fr_constrain fr /\ frame_ok l0 fr'.
Proof using exact_update msolve_length msolve_fixed.
  intros (Hlen & Hz & Hfix) Hnext. cbn [newton_next] in Hnext.
  unfold newton_resume in Hnext.
  set (dlhs := vneg (msolve (fr_jac fr) (vec_of (fr_res fr)) (fr_zcons fr))) in *.
  destruct (search fuel fr dlhs 0 _) as [[relax res jac| | |] l'];
    try discriminate.
  injection Hnext as <- <- _. eexists. split; [reflexivity|]. cbn.
  split; [reflexivity|]. split; [reflexivity|].
  assert (Hd : length dlhs = length (fr_constrain fr)).
  { subst dlhs. unfold vneg. rewrite length_map, msolve_length, Hz.
    unfold nan_where_free. rewrite length_zip_with, repeat_length. lia. }
  unfold frame_ok. cbn. split; [|split; [exact Hz|]].
  - unfold axpy. rewrite length_zip_with, length_map. lia.
  - intros i Hi. rewrite <- (Hfix i Hi).
    pose proof (lookup_lt_Some _ _ _ Hi) as Hlt.
    destruct (lookup_lt_is_Some_2 (fr_lhs fr) i) as [x Hx]; [lia|].
    assert (Hs : msolve (fr_jac fr) (vec_of (fr_res fr)) (fr_zcons fr) !! i
                 = Some (fofZ 0)).
    { apply msolve_fixed. rewrite Hz. apply nan_where_free_fixed; [exact Hi|].
      apply lookup_repeat. exact Hlt. }
    unfold axpy. rewrite lookup_zip_with, Hx. cbn.
    rewrite list_lookup_fmap. subst dlhs. unfold vneg. rewrite list_lookup_fmap, Hs.
    cbn. by rewrite exact_update.
Qed.

Lemma newton_loop_yields (l0 : list F) (fuel n : nat) :
  forall fr, frame_ok l0 fr ->
  Forall (fun y : list F * F =>
            forall i, fr_constrain fr !! i = Some true -> y.1 !! i = l0 !! i)
         (take_yields (next fuel) n (NLoop fr)).
Proof using exact_update msolve_length msolve_fixed.
  induction n as [|n IH]; intros fr Hfr; cbn [take_yields]; [constructor|].
  destruct (next fuel (NLoop fr)) as [[y st| | |] l] eqn:Hnext; try constructor.
  - destruct (newton_resume_ok _ _ _ _ _ _ Hfr Hnext) as (fr' & -> & Hy & Hc & Hfr').
    rewrite Hy, <- Hc. apply Hfr'.
  - destruct (newton_resume_ok _ _ _ _ _ _ Hfr Hnext) as (fr' & -> & Hy & Hc & Hfr').
    rewrite <- Hc. apply IH, Hfr'.
Qed.

Lemma normalize_imposed (shp : list nat) (l l0 lhs : list F) (m : list bool) (i : nat) :
  normalize shp l constrain = Ok (l0, m) ->
  length l = numel shp ->
  (m !! i = Some true -> lhs !! i = l0 !! i) ->
  holds_imposed constrain l lhs i.
Proof.
  intros Hn Hs Hi. destruct constrain as [[mask|c]|]; cbn in Hn |- *; unfold_bind;
    [| |exact Logic.I].
  - case_bool_decide; [|discriminate]. injection Hn as <- <-. exact Hi.
  - case_bool_decide as Hc; [|discriminate]. injection Hn as <- <-.
    intros v Hv. subst shp. cbn in Hs.
    destruct (lookup_lt_is_Some_2 l i) as [x Hx].
    { apply lookup_lt_Some in Hv. lia. }
    rewrite Hi.
    + unfold choose_isnan. rewrite lookup_zip_with, Hv. cbn. by rewrite Hx.
    + unfold not_isnan. by rewrite list_lookup_fmap, Hv.
Qed.


End Constraints.

End NewtonSteps.

(** ** The entrywise backend keeps the contracts of the collaborators *)

Section EntrywiseProps.
Context {F : Type} {SF : Scalars F} {EF : EqDecision F}.

Lemma esolve_length (jac rhs : list F) (cons : list (option F)) :
  length (esolve jac rhs cons) = length cons.
Proof.
  revert jac rhs. induction cons as [|[v|] cons IH]; intros jac rhs; cbn;
    [reflexivity|f_equal; apply IH..].
Qed.

Lemma esolve_fixed (jac rhs : list F) (cons : list (option F)) (i : nat) (v : F) :
  cons !! i = Some (Some v) -> esolve jac rhs cons !! i = Some v.
Proof.
  revert jac rhs i. induction cons as [|c cons IH]; intros jac rhs [|i] Hi;
    try discriminate.
  - cbn in Hi. injection Hi as ->. reflexivity.
  - destruct c; cbn in *; apply IH, Hi.
Qed.

Lemma entrywise_integrate_length (di : key) (l : list (Array (eop F))) (a : argmap F) :
  length (integrate (Numeric := entrywise_numeric) di l a) = length l.
Proof. cbn. apply length_map. Qed.

Lemma entrywise_set_order (l : list key) :
  set_order (Numeric := entrywise_numeric (F := F)) l ≡ₚ remove_dups l.
Proof. reflexivity. Qed.

End EntrywiseProps.

Lemma Qc_exact_update (x r : Qc) : fadd x (fmul r (fneg (fofZ 0))) = x.
Proof. cbn. change (Q2Qc (inject_Z 0)) with 0%Qc. ring. Qed.

(** ** The theorems on the example problems *)

(** C1 on [2 u - 6] with the first of two entries fixed at [5]: the one
    pair is [([5; 3], 0)]. *)
Lemma newton_linear_shortcut_witness :
  exists res jac : list xnum,
    xnewton linear_residual [Some 0%Q; Some 0%Q] linear_constrain None 1 NStart
      = (Yield (msolve jac (vneg (vec_of res))
                  (nan_where_free [true; false] [Some 5%Q; Some 0%Q]), Some 0%Q)
               NLinear, [InfoLinear]) /\
    msolve jac (vneg (vec_of res)) (nan_where_free [true; false] [Some 5%Q; Some 0%Q])
      = [Some 5%Q; Some 3%Q] /\
    xnewton linear_residual [Some 0%Q; Some 0%Q] linear_constrain None 1 NLinear
      = (StopIteration, []).
Proof.
  edestruct (newton_linear_shortcut (V := list xnum) "u" linear_residual
               (Some [Some 0%Q; Some 0%Q]) linear_constrain None
               xminrelax xmaxrelax xrebound ∅) as (res & jac & Hme & Hfirst & Hsecond).
  - apply entrywise_integrate_length.
  - apply entrywise_set_order.
  - vm_compute. reflexivity.
  - vm_compute. reflexivity.
  - exists res, jac. split; [exact Hfirst|]. split; [|exact Hsecond].
    vm_compute in Hme. injection Hme as <- <-. vm_compute. reflexivity.
Defined.

(** C2 on the cubic with [nrelax = 0]: resumed at the iterate [1], the
    full step back to [0] doubles the residual norm. *)
Lemma newton_diverged_stops_witness :
  exists fr,
    state_after (xnewton cubic_residual [Some 0%Q] None (Some 0) 1) 2 NStart
      = Some (NLoop fr) /\
    (exists l, xnewton cubic_residual [Some 0%Q] None (Some 0) 1 (NLoop fr)
               = (StopIteration, l ++ [WarnDecrease])) /\
    (forall (tol : xnum) (maxiter : option nat) (inewton fuel' : nat),
       flt tol (fr_resnorm fr) = true ->
       reached inewton maxiter = false ->
       exists l,
         solve_loop (xnewton cubic_residual [Some 0%Q] None (Some 0) 1) tol maxiter
                    (Datatypes.S fuel') (NLoop fr) (fr_lhs fr) (fr_resnorm fr) inewton
         = (Raises (ModelError stopped_msg), l)).
Proof.
  eexists. split; [vm_compute; reflexivity|].
  eapply (newton_diverged_stops (V := list xnum) "u" cubic_residual
            (Some [Some 0%Q]) None (Some 0) xminrelax xmaxrelax xrebound ∅ _ 0 1).
  - reflexivity.
  - reflexivity.
  - vm_compute. reflexivity.
  - vm_compute. reflexivity.
  - lia.
Defined.


(** C8 on [1/u - 1] with an unbounded [nrelax]: the full step from [2]
    lands on the pole, and the line search retries at a tenth of it. *)
Lemma newton_nonfinite_retries_witness :
  exists fr (res : list xnum),
    state_after (xnewton pole_residual [Some 2%Q] None None 1) 1 NStart
      = Some (NLoop fr) /\
    ls_body (V := list xnum) "u" pole_residual None xminrelax xmaxrelax ∅ fr
            [Some (-2)%Q] 0 (Some 1%Q)
      = (LsContinue (fmul (Some 1%Q) xminrelax),
         [InfoEvalFailed (norm (free (fr_constrain fr) (vec_of res)))]) /\
    linesearch (V := list xnum) "u" pole_residual None xminrelax xmaxrelax ∅ 3 fr
               [Some (-2)%Q] 0 (Some 1%Q)
      = (let '(o, l) := linesearch (V := list xnum) "u" pole_residual None xminrelax
                          xmaxrelax ∅ 2 fr [Some (-2)%Q] 1 (fmul (Some 1%Q) xminrelax) in
         (o, InfoEvalFailed (norm (free (fr_constrain fr) (vec_of res))) :: l)).
Proof.
  eexists. eexists. split; [vm_compute; reflexivity|].
  eapply (newton_nonfinite_retries (V := list xnum) "u" pole_residual None
            xminrelax xmaxrelax ∅).
  - vm_compute. reflexivity.
  - vm_compute. reflexivity.
  - reflexivity.
  - reflexivity.
Defined.

(** C8 fails as stated: with [nrelax = 0] the same trial on the pole is
    not retried.  Its residual norm is NaN, which does not exceed the
    current norm, so the pass ends the line search and the full step to
    the pole is taken: the next pair is [([0], NaN)]. *)
Lemma newton_nonfinite_at_nrelax_accepts :
  exists fr res jac,
    state_after (xnewton pole_residual [Some 2%Q] None (Some 0) 1) 1 NStart
      = Some (NLoop fr) /\
    vneg (msolve (fr_jac fr) (vec_of (fr_res fr)) (fr_zcons fr)) = [Some (-2)%Q] /\
    isfinite (norm (free (fr_constrain fr) (vec_of res))) = false /\
    ls_body (V := list xnum) "u" pole_residual (Some 0) xminrelax xmaxrelax ∅ fr
            [Some (-2)%Q] 0 (Some 1%Q)
      = (LsBreak res jac, []) /\
    take_yields (xnewton pole_residual [Some 2%Q] None (Some 0) 1) 2 NStart
      = [([Some 2%Q], Some (1 # 2)); ([Some 0%Q], None)].
Proof.
  eexists. eexists. eexists. split; [vm_compute; reflexivity|].
  split; [vm_compute; reflexivity|].
  split; [|split; [vm_compute; reflexivity|vm_compute; reflexivity]].
  vm_compute. reflexivity.
Qed.

(** ** The pseudo time iterator *)

Section PseudotimeProps.
Context {F Op V : Type} {SF : Scalars F} {SY : Symbolic F Op} {NU : Numeric F Op V}.

Variables (target : string) (residual inertia : Integral Op) (timestep : F)
          (lhs0 : list F) (residual0 : option (Integral Op))
          (constrain : option (constraint F)) (arguments : argmap F).

Local Abbreviation next :=
  (pseudotime_next target residual inertia timestep lhs0 residual0 constrain arguments).
Local Abbreviation timesteps :=
  (pseudotime_timesteps target residual inertia timestep lhs0 residual0 constrain arguments).
Local Abbreviation norms :=
  (pseudotime_norms target residual inertia timestep lhs0 residual0 constrain arguments).

Lemma pseudotime_body_resnorm0 (fr fr' : pseudotime_frame) :
  pseudotime_body target timestep arguments fr = Ok fr' ->
  pf_resnorm0 fr' = pf_resnorm0 fr.
Proof.
  unfold pseudotime_body. unfold_bind. intros Hb.
  destruct (Integral_add _ _) as [jacobian|]; [|discriminate].
  destruct (multieval2 _ _ _) as [[res jac]|]; [|discriminate].
  injection Hb as <-. reflexivity.
Qed.

Lemma pseudotime_loop_timesteps (n : nat) :
  forall fr,
  timesteps n (PLoop fr) =
  map (fun r => fmul timestep (fdiv (pf_resnorm0 fr) r))
      (removelast (pf_resnorm fr :: norms n (PLoop fr))).
Proof.
  induction n as [|n IH]; intros fr; [reflexivity|].
  cbn [pseudotime_timesteps pseudotime_norms pseudotime_next].
  destruct (pseudotime_body target timestep arguments fr) as [fr'|] eqn:Hb;
    [|reflexivity].
  cbn [omap app]. rewrite IH, (pseudotime_body_resnorm0 _ _ Hb). reflexivity.
Qed.


End PseudotimeProps.


(** ** The theta method *)

Section SolveProps.
Context {F : Type} {SF : Scalars F} {S : Type}.

(** [solve] returns the first iterate when its residual norm is not above
    the tolerance. *)
Lemma solve_first (next : S -> step S (list F * F) * list (logmsg F)) (tol : F)
    (maxiter : option nat) (fuel : nat) (gen gen' : S) (lhs : list F) (r : F)
    (l : list (logmsg F)) :
  next gen = (Yield (lhs, r) gen', l) ->
  flt tol r = false ->
  solve next tol maxiter (Datatypes.S fuel) gen = (Returns lhs, l ++ [InfoReached 0 r]).
Proof.
  intros Hnext Htol. unfold solve. rewrite Hnext. cbn [solve_loop]. rewrite Htol.
  reflexivity.
Qed.

End SolveProps.

Section ThetamethodProps.
Context {F Op V : Type} {SF : Scalars F} {SY : Symbolic F Op} {NU : Numeric F Op V}.

Variables (target : string) (residual inertia : Integral Op) (timestep : F)
          (lhs0 : list F) (theta : F) (target0 : option string)
          (constrain : option (constraint F)) (tol : F) (arguments : argmap F)
          (nrelax : option nat) (minrelax maxrelax rebound : F).

Local Abbreviation enter :=
  (theta_enter target residual inertia timestep lhs0 theta target0 arguments).
Local Abbreviation next :=
  (thetamethod_next target residual inertia timestep lhs0 theta target0 constrain tol
     arguments nrelax minrelax maxrelax rebound).
Local Abbreviation take :=
  (thetamethod_take target residual inertia timestep lhs0 theta target0 constrain tol
     arguments nrelax minrelax maxrelax rebound).
Local Abbreviation newton_to_tol fuel res t0 prev :=
  (newton_solve fuel target res (Some prev) constrain nrelax minrelax maxrelax rebound
     (arguments ∪ {[t0 := prev]}) tol).

Lemma thetamethod_loop_elements (fuel : nat) (res : Integral Op) (t0 : argname)
    (n : nat) :
  forall (lhs : list F) (k : nat) (prev cur : list F),
  (lhs :: take fuel n (TLoop res t0 lhs)) !! k = Some prev ->
  (lhs :: take fuel n (TLoop res t0 lhs)) !! Datatypes.S k = Some cur ->
  exists l, newton_to_tol fuel res t0 prev = (Returns cur, l).
Proof.
  induction n as [|n IH]; intros lhs k prev cur Hk HSk; [destruct k; discriminate|].
  cbn [thetamethod_take thetamethod_next] in Hk, HSk.
  destruct (newton_to_tol fuel res t0 lhs) as [[lhs'| |] l] eqn:Hsolve;
    try (destruct k; discriminate).
  destruct k as [|k].
  - cbn in Hk, HSk. injection Hk as <-. injection HSk as <-. eauto.
  - apply (IH lhs' k); assumption.
Qed.


(** The first advancing step on a problem that [newton] finds linear. *)
Lemma thetamethod_linear_step (fuel : nat) (res : Integral Op) (t0 : argname)
    (lhs1 : list F) (r : F) (st : newton_state) (l : list (logmsg F)) :
  enter = Ok (res, t0) ->
  newton_next target res (Some lhs0) constrain nrelax minrelax maxrelax rebound
    (arguments ∪ {[t0 := lhs0]}) (Datatypes.S fuel) NStart = (Yield (lhs1, r) st, l) ->
  flt tol r = false ->
  take (Datatypes.S fuel) 2 TStart = [lhs0; lhs1].
Proof.
  intros He Hn Htol. cbn [thetamethod_take thetamethod_next]. rewrite He.
  unfold thetamethod_next, newton_solve.
  rewrite (solve_first _ _ _ _ _ _ _ _ _ Hn Htol). reflexivity.
Qed.

End ThetamethodProps.


(** ** Backward Euler on the decay equation *)

Lemma Qc_flt_nonneg (tol : Qc) : (0 <= tol)%Qc -> flt tol (fofZ 0) = false.
Proof.
  intros Htol. cbn. change (Q2Qc (inject_Z 0)) with 0%Qc.
  destruct (tol ?= 0)%Qc eqn:Hc; try reflexivity.
  exfalso. apply (Qcle_not_lt _ _ Htol). exact Hc.
Qed.



(** ** Batched evaluation *)

Section MultiEvalProps.
Context {F Op V : Type} {SY : Symbolic F Op} {NU : Numeric F Op V}.

(** The results of the quadrature form a commutative monoid under the
    sum, the zero integrand integrates to its zero, the quadrature of a
    list of integrands is that of each of them, and a set iterates over
    its distinct elements in some order. *)
Hypothesis vadd_comm : forall a b : V, vadd a b = vadd b a.
Hypothesis vadd_assoc : forall a b c : V, vadd a (vadd b c) = vadd (vadd a b) c.
Hypothesis vadd_zero : forall a : V, vadd vzero a = a.
Hypothesis integrate_zeros :
  forall di shp (arguments : argmap F), integrate1 di (zeros shp) arguments = vzero.
Hypothesis integrate_list :
  forall di l (arguments : argmap F),
    integrate di l arguments = map (fun integrand => integrate1 di integrand arguments) l.
Hypothesis set_order_perm : forall l, set_order l ≡ₚ remove_dups l.

Variable arguments : argmap F.

Local Abbreviation vsum l := (foldr vadd vzero l).
Local Abbreviation part di integral :=
  (integrate1 di (get_or_zeros di integral) arguments).

Lemma fold_left_vsum (vs : list V) :
  forall v, fold_left vadd vs v = vadd v (vsum vs).
Proof using vadd_comm vadd_assoc vadd_zero.
  induction vs as [|x vs IH]; intros v; cbn.
  - by rewrite vadd_comm, vadd_zero.
  - by rewrite IH, vadd_assoc.
Qed.

Lemma np_sum_vsum (l : list V) : np_sum l = vsum l.
Proof using vadd_comm vadd_assoc vadd_zero.
  destruct l as [|v vs]; [reflexivity|]. cbn. apply fold_left_vsum.
Qed.

Lemma vsum_perm (l l' : list V) : l ≡ₚ l' -> vsum l = vsum l'.
Proof using vadd_comm vadd_assoc.
  induction 1 as [|x l l' _ IH|x y l|l l' l'' _ IH1 _ IH2]; cbn.
  - reflexivity.
  - by rewrite IH.
  - by rewrite !vadd_assoc, (vadd_comm y x).
  - congruence.
Qed.

Lemma vsum_app (l l' : list V) : vsum (l ++ l') = vadd (vsum l) (vsum l').
Proof using vadd_assoc vadd_zero.
  induction l as [|x l IH]; cbn; [by rewrite vadd_zero|]. by rewrite IH, vadd_assoc.
Qed.

Lemma vsum_zeros (l : list V) : Forall (fun v => v = vzero) l -> vsum l = vzero.
Proof using vadd_zero.
  induction 1 as [|x l -> _ IH]; cbn; [reflexivity|]. by rewrite vadd_zero.
Qed.

Lemma part_items (z : Array Op) (d : list (key * Array Op)) :
  NoDup (keys d) ->
  map (fun di => integrate1 di (default z (dict_get di d)) arguments) (keys d)
  = map (fun '(di, integrand) => integrate1 di integrand arguments) d.
Proof.
  induction d as [|[k0 e0] d IH]; intros Hnd; [reflexivity|].
  cbn in Hnd. apply NoDup_cons in Hnd as [Hk0 Hnd].
  cbn [keys map fst dict_get]. rewrite bool_decide_eq_true_2 by reflexivity.
  cbn [default]. f_equal. rewrite <- (IH Hnd). apply map_ext_in.
  intros k Hk. apply list_elem_of_In in Hk.
  rewrite bool_decide_eq_false_2; [reflexivity|]. intros ->. exact (Hk0 Hk).
Qed.

Lemma column_sum (integral : Integral Op) (U : list key) :
  NoDup U ->
  NoDup (keys (items integral)) ->
  (forall k, k ∈ keys (items integral) -> k ∈ U) ->
  vsum (map (fun di => part di integral) U) = eval integral arguments.
Proof using vadd_comm vadd_assoc vadd_zero integrate_zeros.
  intros HU HK Hsub. unfold eval. rewrite np_sum_vsum.
  rewrite <- (part_items (zeros (shape integral)) _ HK).
  pose proof (filter_app_complement (fun k => k ∈ keys (items integral)) U) as Hsplit.
  rewrite (vsum_perm _ _ (Permutation_map _ (Permutation_sym Hsplit))).
  rewrite map_app, vsum_app.
  rewrite (vsum_zeros (map _ (filter (fun k => k ∉ keys (items integral)) U))).
  - rewrite (vadd_comm _ vzero), vadd_zero. apply vsum_perm, Permutation_map.
    apply NoDup_Permutation; [by apply NoDup_filter|exact HK|].
    intros k. rewrite list_elem_of_filter. split; [tauto|]. intros Hk. split; auto.
  - apply Forall_forall. intros v Hv. apply list_elem_of_fmap in Hv as (k & -> & Hk).
    apply list_elem_of_filter in Hk as [Hk _]. apply dict_get_None in Hk.
    unfold get_or_zeros. rewrite Hk. apply integrate_zeros.
Qed.

Lemma fold_rows (L : list (Integral Op)) (ks : list key) :
  forall g : Integral Op -> V,
  fold_left (zip_with vadd) (map (fun di => map (fun i => part di i) L) ks) (map g L)
  = map (fun i => fold_left vadd (map (fun di => part di i) ks) (g i)) L.
Proof.
  induction ks as [|k ks IH]; intros g; cbn; [reflexivity|].
  rewrite <- (IH (fun i => vadd (g i) (part k i))). f_equal.
  clear IH. induction L as [|i L IHL]; cbn; [reflexivity|]. by rewrite IHL.
Qed.


End MultiEvalProps.



(** ** The example problems, run *)

Example linear_run :
  take_yields (xnewton linear_residual [Some 0%Q; Some 0%Q] linear_constrain None 1)
    3 NStart
  = [([Some 5%Q; Some 3%Q], Some 0%Q)].
Proof. vm_compute. reflexivity. Qed.

Example cubic_run :
  take_yields (xnewton cubic_residual [Some 0%Q] None (Some 0) 1) 4 NStart
  = [([Some 0%Q], Some 2%Q); ([Some 1%Q], Some 1%Q)].
Proof. vm_compute. reflexivity. Qed.

Example cubic_solve :
  solve (xnewton cubic_residual [Some 0%Q] None (Some 0) 1) (Some (1 # 10)) None 5 NStart
  = (Raises (ModelError stopped_msg),
     [InfoResidual (Some 2%Q); InfoResidual (Some 1%Q); WarnDecrease]).
Proof. vm_compute. reflexivity. Qed.

Example pole_run :
  take_yields (xnewton pole_residual [Some 2%Q] None None 3) 2 NStart
  = [([Some 2%Q], Some (1 # 2)); ([Some (9 # 5)], Some (4 # 9))].
Proof. vm_compute. reflexivity. Qed.

Example square_run :
  map (fun y : list Qc * Qc => map this y.1)
      (take_yields (qnewton square_residual [Q2Qc 1; Q2Qc 1] square_constrain (Some 0) 1)
                   3 NStart)
  = [[5; 1]; [5; 5 # 2]; [5; 41 # 20]]%Q.
Proof. vm_compute. reflexivity. Qed.

Example decay_theta_run :
  thetamethod_take (V := list xnum) "u" decay decay (Some (1 # 2)) [Some 3%Q]
    (Some 1%Q) None None (Some (1 # 100)) ∅ None xminrelax xmaxrelax xrebound 3 3 TStart
  = [[Some 3%Q]; [Some 2%Q]; [Some (4 # 3)]].
Proof. vm_compute. reflexivity. Qed.

(** * Further properties of the code *)

(** ** The driving loop *)

Section SolveMore.
Context {F : Type} {SF : Scalars F} {S : Type}.
Variable next : S -> step S (list F * F) * list (logmsg F).
Variables (tol : F) (maxiter : option nat).

Lemma solve_loop_returns (fuel : nat) :
  forall (gen : S) (lhs : list F) (r : F) (i : nat) (lhs' : list F) (l : list (logmsg F)),
  solve_loop next tol maxiter fuel gen lhs r i = (Returns lhs', l) ->
  exists (n : nat) (r' : F),
    ((lhs, r) :: take_yields next n gen) !! n = Some (lhs', r') /\
    flt tol r' = false /\
    (forall k y, k < n -> ((lhs, r) :: take_yields next n gen) !! k = Some y ->
                 flt tol y.2 = true) /\
    match maxiter with Some m => n = 0 \/ i + n <= m | None => True end.
Proof.
  induction fuel as [|fuel IH]; intros gen lhs r i lhs' l Hs; [discriminate|].
  cbn [solve_loop] in Hs. destruct (flt tol r) eqn:Htol.
  - destruct (reached i maxiter) eqn:Hmax; [discriminate|].
    destruct (next gen) as [[[lhs1 r1] gen1| | |] l1] eqn:Hnext; try discriminate.
    destruct (solve_loop next tol maxiter fuel gen1 lhs1 r1 (Datatypes.S i))
      as [o l2] eqn:Hrec.
    injection Hs as -> _.
    destruct (IH _ _ _ _ _ _ Hrec) as (n & r' & Hn & Hr' & Hbefore & Hbound).
    exists (Datatypes.S n), r'. cbn [take_yields]. rewrite Hnext.
    split; [exact Hn|]. split; [exact Hr'|]. split.
    + intros [|k] y Hk Hy.
      * injection Hy as <-. exact Htol.
      * apply (Hbefore k); [lia|exact Hy].
    + destruct maxiter as [m|]; [|exact Logic.I]. right. cbn in Hmax.
      case_bool_decide; [discriminate|]. lia.
  - injection Hs as <- _. exists 0, r. split; [reflexivity|]. split; [exact Htol|].
    split; [intros k y Hk; lia|]. destruct maxiter; [left; reflexivity|exact Logic.I].
Qed.

(** When [solve] returns, it returns the first iterate of the generator
    whose residual norm is not above the tolerance; every iterate before
    it was above it, and at most [maxiter] iterates precede it. *)
Theorem solve_returns_first_converged (fuel : nat) (gen : S) (lhs : list F)
    (l : list (logmsg F)) :
  solve next tol maxiter fuel gen = (Returns lhs, l) ->
  exists (n : nat) (r : F),
    take_yields next (Datatypes.S n) gen !! n = Some (lhs, r) /\
    flt tol r = false /\
    (forall k y, k < n -> take_yields next (Datatypes.S n) gen !! k = Some y ->
                 flt tol y.2 = true) /\
    match maxiter with Some m => n <= m | None => True end.
Proof.
  unfold solve. intros Hs.
  destruct (next gen) as [[[lhs0 r0] gen0| | |] l0] eqn:Hnext; try discriminate.
  destruct (solve_loop next tol maxiter fuel gen0 lhs0 r0 0) as [o l1] eqn:Hloop.
  injection Hs as -> _.
  destruct (solve_loop_returns _ _ _ _ _ _ _ Hloop) as (n & r & Hn & Hr & Hbefore & Hbound).
  exists n, r. cbn [take_yields]. rewrite Hnext.
  split; [exact Hn|]. split; [exact Hr|]. split; [exact Hbefore|].
  destruct maxiter; [lia|exact Logic.I].
Qed.

Lemma solve_loop_not_reached (m : nat) (fuel : nat) :
  forall (gen : S) (lhs : list F) (r : F) (i : nat),
  maxiter = Some m ->
  i <= m ->
  m - i < fuel ->
  length (take_yields next (m - i) gen) = m - i ->
  Forall (fun y : list F * F => flt tol y.2 = true) ((lhs, r) :: take_yields next (m - i) gen) ->
  exists l, solve_loop next tol maxiter fuel gen lhs r i
            = (Raises (ModelError (not_reached_msg m)), l).
Proof.
  induction fuel as [|fuel IH]; intros gen lhs r i Hm Hi Hfuel Hlen Hall; [lia|].
  cbn [solve_loop]. apply Forall_cons in Hall as [Hr Hall]. cbn in Hr. rewrite Hr.
  subst maxiter. cbn [reached default].
  case_bool_decide as Him.
  - eexists. reflexivity.
  - assert (Hsub : m - i = Datatypes.S (m - Datatypes.S i)) by lia.
    rewrite Hsub in Hlen, Hall. cbn [take_yields] in Hlen, Hall.
    destruct (next gen) as [[[lhs1 r1] gen1| | |] l1]; try discriminate.
    cbn in Hlen.
    destruct (IH gen1 lhs1 r1 (Datatypes.S i) eq_refl) as [l Hl]; [lia..|exact Hall|].
    rewrite Hl. eexists. reflexivity.
Qed.

(** With [maxiter = m], a generator whose first [m + 1] iterates all have
    a residual norm above the tolerance makes [solve] raise the ModelError
    "tolerance not reached in m iterations". *)
Theorem solve_raises_not_reached (m fuel : nat) (gen : S) :
  maxiter = Some m ->
  m < fuel ->
  length (take_yields next (Datatypes.S m) gen) = Datatypes.S m ->
  Forall (fun y : list F * F => flt tol y.2 = true) (take_yields next (Datatypes.S m) gen) ->
  exists l, solve next tol maxiter fuel gen = (Raises (ModelError (not_reached_msg m)), l).
Proof.
  intros Hm Hfuel Hlen Hall. unfold solve. cbn [take_yields] in Hlen, Hall.
  destruct (next gen) as [[[lhs0 r0] gen0| | |] l0]; try discriminate.
  cbn in Hlen.
  destruct (solve_loop_not_reached m fuel gen0 lhs0 r0 0 Hm) as [l Hl];
    rewrite ?Nat.sub_0_r; [lia..|exact Hall|].
  rewrite Hl. eexists. reflexivity.
Qed.

Lemma solve_loop_terminates (m : nat) (fuel : nat) :
  forall (gen : S) (lhs : list F) (r : F) (i : nat),
  maxiter = Some m ->
  (forall st, (next st).1 <> Diverges) ->
  m - i < fuel ->
  (solve_loop next tol maxiter fuel gen lhs r i).1 <> NoFuel.
Proof.
  induction fuel as [|fuel IH]; intros gen lhs r i Hm Hnext Hfuel; [lia|].
  cbn [solve_loop]. destruct (flt tol r); [|discriminate].
  subst maxiter. cbn [reached]. case_bool_decide as Him; [discriminate|].
  pose proof (Hnext gen) as Hgen.
  destruct (next gen) as [[[lhs1 r1] gen1| | |] l1]; try discriminate.
  - pose proof (IH gen1 lhs1 r1 (Datatypes.S i) eq_refl Hnext) as Hrec.
    destruct (solve_loop next tol (Some m) fuel gen1 lhs1 r1 (Datatypes.S i)).
    cbn in *. apply Hrec. lia.
  - cbn in Hgen. congruence.
Qed.

(** With [maxiter = m], [solve] asks the generator for at most [m + 1]
    iterates: it ends within that many passes of its loop unless a [next]
    itself does not end. *)
Theorem solve_terminates (m fuel : nat) (gen : S) :
  maxiter = Some m ->
  (forall st, (next st).1 <> Diverges) ->
  m < fuel ->
  (solve next tol maxiter fuel gen).1 <> NoFuel.
Proof.
  intros Hm Hnext Hfuel. unfold solve. pose proof (Hnext gen) as Hgen.
  destruct (next gen) as [[[lhs0 r0] gen0| | |] l0]; try discriminate.
  - pose proof (solve_loop_terminates m fuel gen0 lhs0 r0 0 Hm Hnext) as Hloop.
    destruct (solve_loop next tol maxiter fuel gen0 lhs0 r0 0).
    cbn in *. apply Hloop. lia.
  - cbn in Hgen. congruence.
Qed.

End SolveMore.

(** ** The line search is bounded by [nrelax]; [newton] against [solve_linear] *)

Section NewtonMore.
Context {F Op V : Type} {SF : Scalars F} {SY : Symbolic F Op} {NU : Numeric F Op V}.

Variables (target : string) (residual : Integral Op) (lhs0 : option (list F))
          (constrain : option (constraint F)) (nrelax : option nat)
          (minrelax maxrelax rebound : F) (arguments : argmap F).

Lemma ls_body_at_bound (fr : newton_frame) (dlhs : list F) (irelax : nat) (relax : F) :
  reached irelax nrelax = true ->
  forall relax' l,
    ls_body target residual nrelax minrelax maxrelax arguments fr dlhs irelax relax
    <> (LsContinue relax', l).
Proof.
  intros Hreach relax' l. unfold ls_body.
  destruct (multieval2 _ _ _) as [[res jac]|]; [|discriminate].
  rewrite Hreach. destruct (flt _ _); discriminate.
Qed.

Lemma linesearch_bounded (n : nat) (fr : newton_frame) (dlhs : list F) (fuel : nat) :
  forall (irelax : nat) (relax : F),
  nrelax = Some n ->
  n < irelax + fuel ->
  0 < fuel ->
  (linesearch target residual nrelax minrelax maxrelax arguments fuel fr dlhs irelax relax).1
  <> LsNoFuel.
Proof.
  induction fuel as [|fuel IH]; intros irelax relax Hn Hlt Hpos; [lia|].
  cbn [linesearch].
  destruct (ls_body target residual nrelax minrelax maxrelax arguments fr dlhs irelax relax)
    as [[relax'|res jac| |e] l] eqn:Hbody; try discriminate.
  destruct (reached irelax nrelax) eqn:Hreach.
  - exfalso. exact (ls_body_at_bound _ _ _ _ Hreach _ _ Hbody).
  - rewrite Hn in Hreach. cbn in Hreach. case_bool_decide; [discriminate|].
    pose proof (IH (Datatypes.S irelax) relax' Hn) as Hrec.
    destruct (linesearch _ _ _ _ _ _ fuel fr dlhs (Datatypes.S irelax) relax').
    cbn in *. apply Hrec; lia.
Qed.

(** With [nrelax = n] a line search evaluates the residual at most [n + 1]
    times: a [next] of [newton] always ends within that many passes. *)
Theorem newton_next_terminates (n fuel : nat) (st : newton_state) :
  nrelax = Some n ->
  n < fuel ->
  (newton_next target residual lhs0 constrain nrelax minrelax maxrelax rebound arguments
     fuel st).1 <> Diverges.
Proof.
  intros Hn Hfuel. destruct st as [| |fr]; cbn [newton_next].
  - unfold newton_start.
    destruct (newton_prelude _ _ _ _ _) as [[[[t l0] m] J]|]; [|discriminate].
    destruct (negb (contains J t)).
    + destruct (newton_linear _ _ _ _ _ _ _); discriminate.
    + destruct (newton_enter _ _ _ _ _ _ _); discriminate.
  - discriminate.
  - unfold newton_resume.
    match goal with
    | |- context [linesearch ?a ?b ?c ?d ?e ?f fuel fr ?dl 0 ?rl] =>
        pose proof (linesearch_bounded n fr dl fuel 0 rl Hn) as Hls;
        destruct (linesearch a b c d e f fuel fr dl 0 rl) as [[relax res jac| | |] l]
    end; try discriminate.
    cbn in Hls. exfalso. apply Hls; [lia|lia|reflexivity].
Qed.

Section AgainstSolveLinear.
Variable msolve_free : V -> list F -> list F.

Lemma newton_prelude_args (t : Array Op) (l0 : list F) (m : list bool) (J : Integral Op) :
  newton_prelude target residual lhs0 constrain arguments = Ok (t, l0, m, J) ->
  arguments !! Str target = None /\
  _find_argument target [FIntegral residual] = Ok t /\
  Integral_derivative residual target = Ok J.
Proof.
  unfold newton_prelude. unfold_bind. intros Hp.
  case_bool_decide as Harg; [|discriminate].
  destruct (_find_argument target [FIntegral residual]) as [t'|]; [|discriminate].
  destruct (match lhs0 with Some l => _ | None => _ end) as [l|]; [|discriminate].
  destruct (normalize _ _ _) as [[l0' m']|]; [|discriminate].
  destruct (Integral_derivative residual target) as [J'|]; [|discriminate].
  injection Hp as -> _ _ ->. auto.
Qed.

(** On arguments that pass the checks at the entry of [newton],
    [solve_linear] raises "problem is not linear" exactly when [newton]
    does not take its linear branch, and otherwise [newton] yields as its
    one iterate what [solve_linear] returns for the constraints made of
    the fixed entries of the initial iterate. *)
Theorem newton_agrees_with_solve_linear (t : Array Op) (l0 : list F) (m : list bool)
    (J : Integral Op) (fuel : nat) :
  newton_prelude target residual lhs0 constrain arguments = Ok (t, l0, m, J) ->
  (contains J t = true ->
   forall fixed,
     solve_linear msolve_free target residual fixed arguments
     = Raise (ModelError not_linear_msg)) /\
  (contains J t = false ->
   forall lhs,
     solve_linear msolve_free target residual (Some (nan_where_free m l0)) arguments
       = Ok lhs <->
     newton_next target residual lhs0 constrain nrelax minrelax maxrelax rebound
       arguments fuel NStart = (Yield (lhs, fofZ 0) NLinear, [InfoLinear])).
Proof.
  intros Hp. destruct (newton_prelude_args _ _ _ _ Hp) as (Harg & Hfind & Hder).
  destruct (newton_prelude_inv _ _ _ _ _ _ _ _ _ Hp) as (_ & Hm & _).
  split; intros Hc.
  - intros fixed. unfold solve_linear. unfold_bind. rewrite Hder, Hfind, Hc. reflexivity.
  - intros lhs. unfold solve_linear. unfold_bind. rewrite Hder, Hfind, Hc.
    rewrite bool_decide_eq_true_2 by exact Harg.
    cbn [newton_next]. unfold newton_start. rewrite Hp, Hc. cbn [negb].
    unfold newton_linear. unfold_bind.
    destruct (multieval2 _ _ _) as [[res jac]|e].
    + unfold check_mask. rewrite bool_decide_eq_true_2 by exact Hm.
      split; intros Heq; injection Heq as <-; reflexivity.
    + split; discriminate.
Qed.

End AgainstSolveLinear.

End NewtonMore.

(** ** More on the algebra of deferred integrals *)

Section IntegralMore.
Context {F Op : Type} {SF : Scalars F} {SY : Symbolic F Op}.

Lemma dict_get_map_values {A B : Type} (f : A -> B) (d : list (key * A)) (k : key) :
  dict_get k (map (fun '(di, v) => (di, f v)) d) = f <$> dict_get k d.
Proof.
  induction d as [|[k0 v0] d IH]; cbn; [reflexivity|].
  destruct (bool_decide (k0 = k)); [reflexivity|exact IH].
Qed.

Lemma keys_map_values {A B : Type} (f : A -> B) (d : list (key * A)) :
  keys (map (fun '(di, v) => (di, f v)) d) = keys d.
Proof.
  unfold keys. induction d as [|[k0 v0] d IH]; cbn; [reflexivity|]. by rewrite IH.
Qed.

(** For integrals [a] and [b] of equal shape, [a - b] has under every key
    the sum of the integrand of [a] and of [-1] times that of [b] when
    both have the key, the integrand of [a] unchanged when only [a] has
    it, and [-1] times the integrand of [b] when only [b] has it; a key
    that both have is never dropped, also not from [a - a]. *)
Theorem Integral_sub_entries (a b : Integral Op) :
  shape a = shape b ->
  NoDup (keys (items b)) ->
  exists c, Integral_sub a b = Ok c /\ shape c = shape a /\
    forall k, dict_get k (items c) =
              sum_entry (dict_get k (items a))
                        ((fun y => amul y (fofZ (-1))) <$> dict_get k (items b)).
Proof.
  intros Hshape Hb. unfold Integral_sub, Integral_add, Integral_neg, Integral_mul, assert.
  cbn [shape items]. rewrite bool_decide_eq_true_2 by assumption. cbn.
  eexists. split; [reflexivity|]. split; [reflexivity|]. intros k. cbn [items].
  rewrite add_loop_get by (rewrite keys_map_values; exact Hb).
  by rewrite dict_get_map_values.
Qed.

Lemma keys_dict_set (k : key) (v : Array Op) (d : list (key * Array Op)) :
  keys (dict_set k v d) = if bool_decide (k ∈ keys d) then keys d else keys d ++ [k].
Proof.
  unfold keys. induction d as [|[k0 v0] d IH]; cbn; [reflexivity|].
  destruct (bool_decide (k0 = k)) eqn:E; cbn.
  - apply bool_decide_eq_true_1 in E. subst k0.
    rewrite bool_decide_eq_true_2 by left. reflexivity.
  - apply bool_decide_eq_false_1 in E. rewrite IH.
    destruct (bool_decide (k ∈ map fst d)) eqn:E'.
    + apply bool_decide_eq_true_1 in E'.
      rewrite bool_decide_eq_true_2 by (right; exact E'). reflexivity.
    + apply bool_decide_eq_false_1 in E'.
      rewrite bool_decide_eq_false_2; [reflexivity|].
      intros Hin. apply elem_of_cons in Hin as [->|Hin]; [by apply E|by apply E'].
Qed.

Lemma keys_add_item (acc : list (key * Array Op)) (kv : key * Array Op) :
  keys (add_item acc kv) = if bool_decide (kv.1 ∈ keys acc) then keys acc
                           else keys acc ++ [kv.1].
Proof. unfold add_item. destruct (dict_get kv.1 acc); apply keys_dict_set. Qed.

Lemma filter_ext_in {A : Type} (P Q : A -> Prop) `{forall x, Decision (P x)}
    `{forall x, Decision (Q x)} (l : list A) :
  (forall x, x ∈ l -> (P x <-> Q x)) -> filter P l = filter Q l.
Proof.
  induction l as [|x l IH]; intros Hl; [reflexivity|].
  rewrite !filter_cons, IH by (intros y Hy; apply Hl; by right).
  destruct (decide (P x)) as [Hp|Hp], (decide (Q x)) as [Hq|Hq]; try reflexivity;
    exfalso; [apply Hq|apply Hp]; by apply (Hl x); [left|].
Qed.

Lemma add_loop_keys (l acc : list (key * Array Op)) :
  NoDup (keys l) ->
  keys (fold_left add_item l acc)
  = keys acc ++ filter (fun k => k ∉ keys acc) (keys l).
Proof.
  revert acc. induction l as [|[k0 e0] l IH]; intros acc Hnd; cbn [fold_left].
  - cbn. by rewrite app_nil_r.
  - cbn in Hnd. apply NoDup_cons in Hnd as [Hk0 Hnd]. rewrite (IH _ Hnd), keys_add_item.
    cbn [fst keys map]. fold (keys l). rewrite filter_cons.
    case_bool_decide as Hin.
    + rewrite decide_False by (intros Hn; exact (Hn Hin)). reflexivity.
    + rewrite decide_True by exact Hin. rewrite <- app_assoc. cbn. do 2 f_equal.
      apply filter_ext_in. intros k Hk. fold (keys l) in Hk. rewrite elem_of_app, list_elem_of_singleton.
      split; [tauto|]. intros Hn [?| ->]; [tauto|]. exact (Hk0 Hk).
Qed.

(** The entries of [a + b] are in the order of the keys of [a], followed
    by the keys that only [b] has, in the order of [b]. *)
Theorem Integral_add_key_order (a b c : Integral Op) :
  NoDup (keys (items b)) ->
  Integral_add a b = Ok c ->
  keys (items c)
  = keys (items a) ++ filter (fun k => k ∉ keys (items a)) (keys (items b)).
Proof.
  intros Hb. unfold Integral_add, assert.
  destruct (bool_decide (shape a = shape b)); [|discriminate]. cbn.
  intros Hc. injection Hc as <-. cbn [items]. apply add_loop_keys, Hb.
Qed.

(** When [Integral.derivative] returns, the target is an argument of rank
    one in some integrand, the derivative has the keys of the integral in
    their order, under each key the derivative of the integrand, and the
    shape of the integral with the length of the target appended. *)
Theorem Integral_derivative_entries (self d : Integral Op) (target : string) :
  Integral_derivative self target = Ok d ->
  exists (t : Array Op) (n : nat),
    _find_argument target [FIntegral self] = Ok t /\
    ashape t = [n] /\
    shape d = shape self ++ [n] /\
    keys (items d) = keys (items self) /\
    forall k, dict_get k (items d) = (fun e => derivative e t) <$> dict_get k (items self).
Proof.
  unfold Integral_derivative. unfold_bind. intros Hd.
  destruct (_find_argument target [FIntegral self]) as [t|]; [|discriminate].
  case_bool_decide as Hrank; [|discriminate]. injection Hd as <-.
  destruct (ashape t) as [|n [|? ?]] eqn:Hs; try discriminate.
  exists t, n. split; [reflexivity|]. split; [exact Hs|]. cbn [shape items].
  split; [reflexivity|]. split; [apply keys_map_values|].
  intros k. apply dict_get_map_values.
Qed.

(** [Integral.derivative] raises the ValueError of a target that is not
    found whenever no integrand has the target among the arguments below
    its top node, in particular on every integral without entries. *)
Theorem Integral_derivative_not_found (self : Integral Op) (target : string) :
  candidates target [FIntegral self] = [] ->
  Integral_derivative self target = Raise (ValueError (not_found_msg target)).
Proof.
  intros Hc. unfold Integral_derivative, _find_argument. rewrite find_loop_spec.
  unfold candidates in Hc. unfold first_named. rewrite Hc. reflexivity.
Qed.

End IntegralMore.

Section ConcatenateProps.
Context {F Op V : Type} {SY : Symbolic F Op} {NU : Numeric F Op V}.
Variable aconcatenate : list (Array Op) -> Array Op.

Lemma sum_shape0_ok (integrals : list (Integral Op)) (n : nat) :
  sum_shape0 integrals = Ok n ->
  n = sum_list (map (fun integral => hd 0 (shape integral)) integrals) /\
  Forall (fun integral => shape integral <> []) integrals.
Proof.
  revert n. induction integrals as [|integral rest IH]; intros n Hn; cbn in Hn.
  - injection Hn as <-. split; [reflexivity|constructor].
  - unfold_bind. destruct (shape integral) as [|n0 s] eqn:Hs; [discriminate|]. cbn in Hn.
    destruct (sum_shape0 rest) as [m|]; [|discriminate]. injection Hn as <-.
    destruct (IH m eq_refl) as [-> Hrest]. split.
    + cbn. rewrite Hs. reflexivity.
    + constructor; [congruence|exact Hrest].
Qed.

Lemma dict_get_tabulate (f : key -> Array Op) (U : list key) (k : key) :
  dict_get k (map (fun di => (di, f di)) U) = if bool_decide (k ∈ U) then Some (f k) else None.
Proof.
  induction U as [|k0 U IH]; cbn; [reflexivity|].
  destruct (bool_decide (k0 = k)) eqn:E.
  - apply bool_decide_eq_true_1 in E. subst k0.
    rewrite bool_decide_eq_true_2 by left. reflexivity.
  - apply bool_decide_eq_false_1 in E. rewrite IH.
    destruct (bool_decide (k ∈ U)) eqn:E'.
    + apply bool_decide_eq_true_1 in E'.
      rewrite bool_decide_eq_true_2 by (right; exact E'). reflexivity.
    + apply bool_decide_eq_false_1 in E'.
      rewrite bool_decide_eq_false_2; [reflexivity|].
      intros Hin. apply elem_of_cons in Hin as [->|Hin]; [by apply E|by apply E'].
Qed.

(** When [Integral.concatenate] returns, the list of integrals is not
    empty and no integral is a scalar; the first length of the result is
    the sum of the first lengths of the integrals and the further lengths
    are those of every integral; the result has each key of the integrals
    once, and under it the concatenation of one integrand for every
    integral in turn, zeros standing in where an integral lacks the key. *)
Theorem concatenate_shape_and_entries (integrals : list (Integral Op)) (c : Integral Op) :
  (forall l, set_order l ≡ₚ remove_dups l) ->
  concatenate aconcatenate integrals = Ok c ->
  integrals <> [] /\
  hd 0 (shape c) = sum_list (map (fun integral => hd 0 (shape integral)) integrals) /\
  Forall (fun integral => shape integral <> [] /\ tail (shape integral) = tail (shape c))
         integrals /\
  NoDup (keys (items c)) /\
  forall k,
    dict_get k (items c) =
    if bool_decide (Exists (fun integral => k ∈ keys (items integral)) integrals)
    then Some (aconcatenate (map (get_or_zeros k) integrals)) else None.
Proof.
  intros Hord. unfold concatenate. unfold_bind. intros Hc.
  assert (Hkeys : forall k,
    k ∈ set_order (flat_map (fun integral => keys (items integral)) integrals) <->
    Exists (fun integral => k ∈ keys (items integral)) integrals).
  { intros k. rewrite (Hord _), elem_of_remove_dups, Exists_exists. split.
    - intros Hk. apply list_elem_of_In, in_flat_map in Hk as (integral & Hin & Hk).
      exists integral. split; by apply list_elem_of_In.
    - intros (integral & Hin & Hk). apply list_elem_of_In, in_flat_map.
      exists integral. split; by apply list_elem_of_In. }
  destruct (forallb _ (tail integrals)) eqn:Hall; [|discriminate].
  destruct (sum_shape0 integrals) as [n|] eqn:Hsum; [|discriminate].
  destruct (sum_shape0_ok _ _ Hsum) as [-> Hne].
  destruct integrals as [|first rest]; [discriminate|]. injection Hc as <-.
  cbn [shape items hd tail head default] in Hall |- *.
  split; [discriminate|]. split; [reflexivity|]. split; [|split].
  - apply Forall_cons in Hne as [Hfirst Hrest]. constructor; [split; [exact Hfirst|reflexivity]|].
    apply Forall_forall. intros integral Hin. split.
    + rewrite Forall_forall in Hrest. by apply Hrest.
    + rewrite forallb_forall in Hall. apply list_elem_of_In, Hall in Hin.
      by apply bool_decide_eq_true_1 in Hin.
  - unfold keys at 1. rewrite map_map. cbn [fst]. rewrite map_id.
    rewrite (Hord _). apply NoDup_remove_dups.
  - intros k. rewrite dict_get_tabulate. erewrite bool_decide_ext; [reflexivity|].
    apply Hkeys.
Qed.

End ConcatenateProps.

(** ** Evaluation of a sum of integrals *)

Section EvalSum.
Context {F Op V : Type} {SY : Symbolic F Op} {NU : Numeric F Op V}.

Hypothesis vadd_comm : forall a b : V, vadd a b = vadd b a.
Hypothesis vadd_assoc : forall a b c : V, vadd a (vadd b c) = vadd (vadd a b) c.
Hypothesis vadd_zero : forall a : V, vadd vzero a = a.
Hypothesis integrate_sum :
  forall di x y (arguments : argmap F),
    integrate1 di (aadd x y) arguments
    = vadd (integrate1 di x arguments) (integrate1 di y arguments).

Variable arguments : argmap F.

Local Abbreviation esum d :=
  (foldr vadd vzero (map (fun '(di, integrand) => integrate1 di integrand arguments) d)).

Lemma esum_add_item (acc : list (key * Array Op)) (k : key) (e : Array Op) :
  esum (add_item acc (k, e)) = vadd (esum acc) (integrate1 k e arguments).
Proof using vadd_comm vadd_assoc vadd_zero integrate_sum.
  induction acc as [|[k0 x0] acc IH].
  - cbn. by rewrite vadd_zero, vadd_comm, vadd_zero.
  - unfold add_item in *. cbn [fst snd dict_get] in *.
    destruct (bool_decide (k0 = k)) eqn:E.
    + apply bool_decide_eq_true_1 in E. subst k0. cbn [dict_set].
      rewrite bool_decide_eq_true_2 by reflexivity. cbn.
      rewrite integrate_sum, <- !vadd_assoc. f_equal. apply vadd_comm.
    + assert (Hset : forall v, dict_set k v ((k0, x0) :: acc) = (k0, x0) :: dict_set k v acc).
      { intros v. cbn. by rewrite E. }
      destruct (dict_get k acc) as [a|]; rewrite Hset; cbn; rewrite IH;
        by rewrite vadd_assoc.
Qed.

Lemma esum_add_loop (l acc : list (key * Array Op)) :
  esum (fold_left add_item l acc) = vadd (esum acc) (esum l).
Proof using vadd_comm vadd_assoc vadd_zero integrate_sum.
  revert acc. induction l as [|[k e] l IH]; intros acc; cbn [fold_left].
  - cbn. by rewrite vadd_comm, vadd_zero.
  - rewrite IH, esum_add_item. cbn. by rewrite vadd_assoc.
Qed.

(** The value of [a + b] is the sum of the values of [a] and of [b], when
    the quadrature of a sum of integrands is the sum of their quadratures
    and the sum of values is commutative and associative with the zero of
    the empty sum as its unit. *)
Theorem eval_Integral_add (a b c : Integral Op) :
  Integral_add a b = Ok c ->
  eval c arguments = vadd (eval a arguments) (eval b arguments).
Proof using vadd_comm vadd_assoc vadd_zero integrate_sum.
  unfold Integral_add, assert. destruct (bool_decide (shape a = shape b)); [|discriminate].
  cbn. intros Hc. injection Hc as <-. unfold eval. cbn [items].
  rewrite !(np_sum_vsum vadd_comm vadd_assoc vadd_zero). apply esum_add_loop.
Qed.

End EvalSum.

(** ** More on the pseudo time iterator *)

Section RaisedExceptions.
Context {F Op V : Type} {SF : Scalars F} {SY : Symbolic F Op} {NU : Numeric F Op V}.

Lemma assert_raises (c : bool) (msg : string) (e : exn) :
  assert c msg = Raise e -> ~ is_model_error e.
Proof. unfold assert. destruct c; [discriminate|]. intros H. injection H as <-. auto. Qed.

Lemma find_argument_raises (target : string) (funcs : list (FuncArg Op)) (e : exn) :
  _find_argument target funcs = Raise e -> ~ is_model_error e.
Proof.
  unfold _find_argument. rewrite find_loop_spec.
  destruct (first_named _ _); [discriminate|]. intros H. injection H as <-. auto.
Qed.

Lemma derivative_raises (self : Integral Op) (target : string) (e : exn) :
  Integral_derivative self target = Raise e -> ~ is_model_error e.
Proof.
  unfold Integral_derivative. unfold_bind.
  destruct (_find_argument _ _) as [t|e'] eqn:Hf.
  - destruct (bool_decide _); [discriminate|]. intros H. injection H as <-. auto.
  - intros H. injection H as <-. exact (find_argument_raises _ _ _ Hf).
Qed.

Lemma add_raises (a b : Integral Op) (e : exn) :
  Integral_add a b = Raise e -> ~ is_model_error e.
Proof.
  unfold Integral_add, assert. unfold_bind. destruct (bool_decide _); [discriminate|].
  intros H. injection H as <-. auto.
Qed.

Lemma normalize_raises (shp : list nat) (l : list F) (constrain : option (constraint F))
    (e : exn) :
  normalize shp l constrain = Raise e -> ~ is_model_error e.
Proof.
  destruct constrain as [[mask|c]|]; cbn; unfold_bind; try discriminate;
    (destruct (bool_decide _); [discriminate|]); intros H; injection H as <-; auto.
Qed.

Lemma check_mask_raises {A : Type} (m : list bool) (v : list A) (e : exn) :
  check_mask m v = Raise e -> ~ is_model_error e.
Proof.
  unfold check_mask. destruct (bool_decide _); [discriminate|].
  intros H. injection H as <-. auto.
Qed.

Lemma multieval2_raises (r j : Integral Op) (arguments : argmap F) (e : exn) :
  multieval2 r j arguments = Raise e -> ~ is_model_error e.
Proof.
  unfold multieval2, unpack2.
  destruct (multieval _ _) as [v|[|a [|b [|c l]]]]; try discriminate;
    intros H; injection H as <-; auto.
Qed.

End RaisedExceptions.

Section PseudotimeMore.
Context {F Op V : Type} {SF : Scalars F} {SY : Symbolic F Op} {NU : Numeric F Op V}.

Variables (target : string) (residual inertia : Integral Op) (timestep : F)
          (lhs0 : list F) (residual0 : option (Integral Op))
          (constrain : option (constraint F)) (arguments : argmap F).

Lemma pseudotime_enter_raises (e : exn) :
  pseudotime_enter target residual inertia timestep lhs0 residual0 constrain arguments
    = Raise e ->
  ~ is_model_error e.
Proof.
  unfold pseudotime_enter. unfold_bind.
  destruct (bool_decide _); [|intros H; injection H as <-; auto].
  destruct (Integral_derivative residual target) as [j0|e0] eqn:H0;
    [|intros H; injection H as <-; exact (derivative_raises _ _ _ H0)].
  destruct (Integral_derivative inertia target) as [jt|e1] eqn:H1;
    [|intros H; injection H as <-; exact (derivative_raises _ _ _ H1)].
  destruct (match residual0 with Some r0 => _ | None => _ end) as [res'|e2] eqn:H2.
  2:{ intros H; injection H as <-. destruct residual0; [|discriminate].
      exact (add_raises _ _ _ H2). }
  destruct (normalize _ _ _) as [[l0 m]|e3] eqn:H3;
    [|intros H; injection H as <-; exact (normalize_raises _ _ _ _ H3)].
  destruct (_find_argument _ _) as [t|e4] eqn:H4;
    [|intros H; injection H as <-; exact (find_argument_raises _ _ _ H4)].
  destruct (check_mask _ _) as [[]|e5] eqn:H5;
    [|intros H; injection H as <-; exact (check_mask_raises _ _ _ H5)].
  destruct (Integral_add j0 _) as [jac|e6] eqn:H6;
    [|intros H; injection H as <-; exact (add_raises _ _ _ H6)].
  destruct (multieval2 _ _ _) as [[res jac']|e7] eqn:H7;
    [discriminate|intros H; injection H as <-; exact (multieval2_raises _ _ _ _ H7)].
Qed.

Lemma pseudotime_body_raises (fr : pseudotime_frame) (e : exn) :
  pseudotime_body target timestep arguments fr = Raise e -> ~ is_model_error e.
Proof.
  unfold pseudotime_body. unfold_bind.
  destruct (Integral_add _ _) as [jac|e6] eqn:H6;
    [|intros H; injection H as <-; exact (add_raises _ _ _ H6)].
  destruct (multieval2 _ _ _) as [[res jac']|e7] eqn:H7;
    [discriminate|intros H; injection H as <-; exact (multieval2_raises _ _ _ _ H7)].
Qed.

Lemma pseudotime_next_cases (st : pseudotime_state) :
  match (pseudotime_next target residual inertia timestep lhs0 residual0 constrain
           arguments st).1 with
  | Yield _ _ => True
  | Raised e => ~ is_model_error e
  | StopIteration => False
  | Diverges => False
  end.
Proof.
  destruct st as [|fr]; cbn [pseudotime_next].
  - destruct (pseudotime_enter _ _ _ _ _ _ _ _) as [fr|e] eqn:He; cbn; [exact Logic.I|].
    exact (pseudotime_enter_raises _ He).
  - destruct (pseudotime_body _ _ _ fr) as [fr'|e] eqn:Hb; cbn; [exact Logic.I|].
    exact (pseudotime_body_raises _ _ Hb).
Qed.

Lemma pseudotime_solve_loop_raises (tol : F) (fuel : nat) :
  forall st lhs r i e l,
  solve_loop
    (pseudotime_next target residual inertia timestep lhs0 residual0 constrain arguments)
    tol None fuel st lhs r i = (Raises e, l) ->
  ~ is_model_error e.
Proof.
  induction fuel as [|fuel IH]; intros st lhs r i e l Hs; [discriminate|].
  cbn [solve_loop reached] in Hs. destruct (flt tol r); [|discriminate].
  pose proof (pseudotime_next_cases st) as Hc.
  destruct (pseudotime_next _ _ _ _ _ _ _ _ st) as [[[lhs1 r1] st1| |e1|] l1];
    cbn in Hc; try contradiction.
  - destruct (solve_loop _ tol None fuel st1 lhs1 r1 (Datatypes.S i)) as [o l2] eqn:Hrec.
    injection Hs as -> _. exact (IH _ _ _ _ _ _ Hrec).
  - injection Hs as <- _. exact Hc.
Qed.

(** [pseudotime] never ends by itself and never raises a ModelError:
    [solve] on it with an unbounded [maxiter] can fail only with the
    errors of the arguments and of the evaluation, never with "generator
    stopped" or "tolerance not reached". *)
Theorem pseudotime_solve_no_model_error (tol : F) (fuel : nat) (e : exn)
    (l : list (logmsg F)) :
  solve
    (pseudotime_next target residual inertia timestep lhs0 residual0 constrain arguments)
    tol None fuel PStart = (Raises e, l) ->
  ~ is_model_error e.
Proof.
  unfold solve. intros Hs. pose proof (pseudotime_next_cases PStart) as Hc.
  destruct (pseudotime_next _ _ _ _ _ _ _ _ PStart) as [[[lhs1 r1] st1| |e1|] l1];
    cbn in Hc; try contradiction.
  - destruct (solve_loop _ tol None fuel st1 lhs1 r1 0) as [o l2] eqn:Hrec.
    injection Hs as -> _. exact (pseudotime_solve_loop_raises _ _ _ _ _ _ _ _ Hrec).
  - injection Hs as <- _. exact Hc.
Qed.

End PseudotimeMore.

Section PseudotimeConstraints.
Context {F Op V : Type} {SF : Scalars F} {SY : Symbolic F Op} {NU : Numeric F Op V}.

Variables (target : string) (residual inertia : Integral Op) (timestep : F)
          (lhs0 : list F) (residual0 : option (Integral Op))
          (constrain : option (constraint F)) (arguments : argmap F).

(** Subtracting zero is exact, and the matrix backend returns a vector of
    the length of the constraints that has the fixed values in it. *)
Hypothesis exact_sub : forall x : F, fsub x (fofZ 0) = x.
Hypothesis msolve_length :
  forall (jac : V) rhs cons, length (msolve jac rhs cons) = length cons.
Hypothesis msolve_fixed :
  forall (jac : V) rhs cons i v,
    cons !! i = Some (Some v) -> msolve jac rhs cons !! i = Some v.

Lemma zero_where_fixed_lookup (m : list bool) (i : nat) :
  m !! i = Some true -> zero_where_fixed (F := F) m !! i = Some (Some (fofZ 0)).
Proof. intros Hi. unfold zero_where_fixed. by rewrite list_lookup_fmap, Hi. Qed.

Lemma pseudotime_enter_ok (fr : pseudotime_frame) :
  pseudotime_enter target residual inertia timestep lhs0 residual0 constrain arguments
    = Ok fr ->
  length lhs0 = numel (shape residual) ->
  exists l0 m, normalize (shape residual) lhs0 constrain = Ok (l0, m) /\
               pf_constrain fr = m /\ pframe_ok l0 fr.
Proof.
  unfold pseudotime_enter. unfold_bind. intros Hen Hlen.
  destruct (bool_decide _); [|discriminate].
  destruct (Integral_derivative residual target) as [j0|]; [|discriminate].
  destruct (Integral_derivative inertia target) as [jt|]; [|discriminate].
  destruct (match residual0 with Some r0 => _ | None => _ end) as [res'|] eqn:H2;
    [|discriminate].
  assert (Hshape : shape res' = shape residual).
  { destruct residual0 as [r0|]; [|by injection H2 as <-].
    unfold Integral_add, assert in H2. unfold_bind.
    destruct (bool_decide _); [|discriminate]. by injection H2 as <-. }
  rewrite Hshape in Hen.
  destruct (normalize _ _ _) as [[l0 m]|] eqn:Hn; [|discriminate].
  destruct (normalize_lengths _ _ _ _ _ Hn Hlen) as [Hl0 Hm].
  destruct (_find_argument _ _); [|discriminate].
  destruct (check_mask _ _) as [[]|]; [|discriminate].
  destruct (Integral_add j0 _); [|discriminate].
  destruct (multieval2 _ _ _) as [[res jac]|]; [|discriminate].
  injection Hen as <-. exists l0, m. split; [reflexivity|]. split; [reflexivity|].
  unfold pframe_ok. cbn. split; [lia|]. split; reflexivity.
Qed.

Lemma pseudotime_body_ok (l0 : list F) (fr fr' : pseudotime_frame) :
  pframe_ok l0 fr ->
  pseudotime_body target timestep arguments fr = Ok fr' ->
  pf_constrain fr' = pf_constrain fr /\ pframe_ok l0 fr'.
Proof using exact_sub msolve_length msolve_fixed.
  intros (Hlen & Hz & Hfix). unfold pseudotime_body. unfold_bind. intros Hb.
  destruct (Integral_add _ _); [|discriminate].
  destruct (multieval2 _ _ _) as [[res jac]|]; [|discriminate].
  injection Hb as <-. cbn. split; [reflexivity|]. unfold pframe_ok. cbn.
  split; [|split; [exact Hz|]].
  - unfold vsub. rewrite length_zip_with, msolve_length, Hz.
    unfold zero_where_fixed. rewrite length_map. lia.
  - intros i Hi. rewrite <- (Hfix i Hi).
    pose proof (lookup_lt_Some _ _ _ Hi) as Hlt.
    destruct (lookup_lt_is_Some_2 (pf_lhs fr) i) as [x Hx]; [lia|].
    unfold vsub. rewrite lookup_zip_with, Hx. cbn.
    rewrite (msolve_fixed _ _ _ i (fofZ 0)).
    + cbn. by rewrite exact_sub.
    + rewrite Hz. by apply zero_where_fixed_lookup.
Qed.

Lemma pseudotime_loop_yields (l0 : list F) (n : nat) :
  forall fr, pframe_ok l0 fr ->
  Forall (fun y : list F * F =>
            forall i, pf_constrain fr !! i = Some true -> y.1 !! i = l0 !! i)
         (take_yields
            (pseudotime_next target residual inertia timestep lhs0 residual0 constrain
               arguments) n (PLoop fr)).
Proof using exact_sub msolve_length msolve_fixed.
  induction n as [|n IH]; intros fr Hfr; cbn [take_yields pseudotime_next];
    [constructor|].
  destruct (pseudotime_body _ _ _ fr) as [fr'|] eqn:Hb; cbn; [|constructor].
  destruct (pseudotime_body_ok _ _ _ Hfr Hb) as [Hc Hfr'].
  constructor.
  - cbn. rewrite <- Hc. apply Hfr'.
  - rewrite <- Hc. apply IH, Hfr'.
Qed.

(** In every iterate that [pseudotime] yields, every entry that
    [constrain] marks as fixed has its imposed value: the value given in
    a float [constrain], the value of [lhs0] under a boolean mask.  The
    subtraction of zero is taken exact and the linear solve to respect
    its constraints; [lhs0] has the length of the residual, which
    [pseudotime] does not check. *)
Theorem pseudotime_respects_constraints (n : nat) :
  length lhs0 = numel (shape residual) ->
  Forall (fun y : list F * F => forall i, holds_imposed constrain lhs0 y.1 i)
         (take_yields
            (pseudotime_next target residual inertia timestep lhs0 residual0 constrain
               arguments) n PStart).
Proof using exact_sub msolve_length msolve_fixed.
  intros Hlen. destruct n as [|n]; cbn [take_yields pseudotime_next]; [constructor|].
  destruct (pseudotime_enter _ _ _ _ _ _ _ _) as [fr|] eqn:Hen; cbn; [|constructor].
  destruct (pseudotime_enter_ok _ Hen Hlen) as (l0 & m & Hn & Hc & Hfr).
  constructor.
  - intros i. eapply normalize_imposed; [exact Hn|exact Hlen|].
    cbn. rewrite <- Hc. apply Hfr.
  - eapply Forall_impl; [apply pseudotime_loop_yields, Hfr|].
    intros y Hy i. eapply normalize_imposed; [exact Hn|exact Hlen|].
    rewrite <- Hc. apply Hy.
Qed.

End PseudotimeConstraints.

(** ** The further properties on the example problems *)

(** [solve] on the Newton iterates of [1/u - 1] from [2] with the
    tolerance [2/5] returns the third iterate. *)
Lemma solve_returns_first_converged_witness :
  exists (lhs : list xnum) (l : list (logmsg xnum)),
    solve (xnewton pole_residual [Some 2%Q] None None 3) (Some (2 # 5)) None 5 NStart
      = (Returns lhs, l) /\
    exists (n : nat) (r : xnum),
      take_yields (xnewton pole_residual [Some 2%Q] None None 3) (Datatypes.S n) NStart !! n
        = Some (lhs, r) /\
      flt (Some (2 # 5)) r = false /\
      (forall k y, k < n ->
         take_yields (xnewton pole_residual [Some 2%Q] None None 3) (Datatypes.S n) NStart
           !! k = Some y ->
         flt (Some (2 # 5)) y.2 = true) /\
      True.
Proof.
  eexists. eexists. split; [vm_compute; reflexivity|].
  eapply (solve_returns_first_converged
            (xnewton pole_residual [Some 2%Q] None None 3) (Some (2 # 5)) None 5 NStart).
  vm_compute. reflexivity.
Defined.

(** The same iterates with the tolerance [1/100] and [maxiter = 1]. *)
Lemma solve_raises_not_reached_witness :
  exists l,
    solve (xnewton pole_residual [Some 2%Q] None None 3) (Some (1 # 100)) (Some 1) 2 NStart
    = (Raises (ModelError (not_reached_msg 1)), l).
Proof.
  apply (solve_raises_not_reached
           (xnewton pole_residual [Some 2%Q] None None 3) (Some (1 # 100)) (Some 1) 1 2
           NStart);
    [reflexivity|lia|vm_compute; reflexivity|vm_compute; repeat constructor].
Defined.

(** [solve] with [maxiter = 2] on the pseudo time iterates of the decay
    equation. *)
Lemma solve_terminates_witness :
  (solve (pseudotime_next (V := list xnum) "u" decay decay (Some 1%Q) [Some 4%Q] None None ∅)
         (Some (1 # 100)) (Some 2) 3 PStart).1 <> NoFuel.
Proof.
  apply (solve_terminates
           (pseudotime_next (V := list xnum) "u" decay decay (Some 1%Q) [Some 4%Q] None
              None ∅) (Some (1 # 100)) (Some 2) 2 3 PStart); [reflexivity| |lia].
  intros st.
  pose proof (pseudotime_next_cases (V := list xnum) "u" decay decay (Some 1%Q)
                [Some 4%Q] None None ∅ st) as Hc.
  intros Hd. rewrite Hd in Hc. exact Hc.
Defined.

(** The line search from [2] on [1/u - 1] with [nrelax = 2]. *)
Lemma newton_next_terminates_witness :
  exists fr,
    state_after (xnewton pole_residual [Some 2%Q] None (Some 2) 3) 1 NStart
      = Some (NLoop fr) /\
    (xnewton pole_residual [Some 2%Q] None (Some 2) 3 (NLoop fr)).1 <> Diverges.
Proof.
  eexists. split; [vm_compute; reflexivity|].
  apply (newton_next_terminates (V := list xnum) "u" pole_residual (Some [Some 2%Q]) None
           (Some 2) xminrelax xmaxrelax xrebound ∅ 2 3); [reflexivity|lia].
Defined.

(** [2 u - 6] with the first of two entries fixed at [5]. *)
Lemma newton_agrees_with_solve_linear_witness :
  exists lhs : list xnum,
    solve_linear (V := list xnum) (fun jac rhs => esolve jac rhs (map (fun _ => None) rhs))
      "u" linear_residual (Some [Some (Some 5%Q); None]) ∅ = Ok lhs /\
    xnewton linear_residual [Some 0%Q; Some 0%Q] linear_constrain None 1 NStart
      = (Yield (lhs, Some 0%Q) NLinear, [InfoLinear]).
Proof.
  eexists. split; [vm_compute; reflexivity|].
  edestruct (fun t l0 m J =>
             newton_agrees_with_solve_linear (V := list xnum) "u" linear_residual
               (Some [Some 0%Q; Some 0%Q]) linear_constrain None
               xminrelax xmaxrelax xrebound ∅
               (fun jac rhs => esolve jac rhs (map (fun _ => None) rhs)) t l0 m J 1)
    as [_ Hlin].
  - vm_compute. reflexivity.
  - apply Hlin; vm_compute; reflexivity.
Defined.

(** [a - a] for the integral [a] of [2 u - 6]. *)
Lemma Integral_sub_entries_witness :
  exists c, Integral_sub (F := xnum) linear_residual linear_residual = Ok c /\
    shape c = shape linear_residual /\
    forall k, dict_get k (items c) =
              sum_entry (dict_get k (items linear_residual))
                        ((fun y => amul y (fofZ (-1))) <$> dict_get k (items linear_residual)).
Proof.
  apply (Integral_sub_entries (F := xnum) linear_residual linear_residual);
    [reflexivity|apply (bool_decide_unpack _); vm_compute; reflexivity].
Defined.

(** The integral of [2 u - 6] on the domain [0] plus the integral of a
    constant on the domain [1]. *)
Lemma Integral_add_key_order_witness :
  exists c,
    Integral_add (F := xnum) linear_residual (Integral_init (xconst 1 2) 1 "gauss2") = Ok c /\
    keys (items c)
    = keys (items linear_residual) ++
      filter (fun k => k ∉ keys (items linear_residual))
             (keys (items (Integral_init (F := xnum) (xconst 1 2) 1 "gauss2"))).
Proof.
  eexists. split; [vm_compute; reflexivity|].
  apply (Integral_add_key_order (F := xnum) linear_residual
           (Integral_init (xconst 1 2) 1 "gauss2"));
    [apply (bool_decide_unpack _); vm_compute; reflexivity|vm_compute; reflexivity].
Defined.

(** The derivative of the integral of [2 u - 6] to [u]. *)
Lemma Integral_derivative_entries_witness :
  exists d, Integral_derivative (F := xnum) linear_residual "u" = Ok d /\
  exists (t : Array (eop xnum)) (n : nat),
    _find_argument "u" [FIntegral linear_residual] = Ok t /\
    ashape t = [n] /\
    shape d = shape linear_residual ++ [n] /\
    keys (items d) = keys (items linear_residual) /\
    forall k, dict_get k (items d)
              = (fun e => derivative e t) <$> dict_get k (items linear_residual).
Proof.
  eexists. split; [vm_compute; reflexivity|].
  apply (Integral_derivative_entries (F := xnum) linear_residual _ "u").
  vm_compute. reflexivity.
Defined.

(** The derivative of the integral of [2 u - 6] to [v]. *)
Lemma Integral_derivative_not_found_witness :
  Integral_derivative (F := xnum) linear_residual "v"
  = Raise (ValueError (not_found_msg "v")).
Proof.
  apply (Integral_derivative_not_found (F := xnum) linear_residual "v").
  vm_compute. reflexivity.
Defined.

(** The integral of [2 u - 6] concatenated to the integral of a constant
    on another domain, the concatenation of arrays being that of their
    values. *)
Lemma concatenate_shape_and_entries_witness :
  exists c,
    concatenate (V := list xnum)
      (fun arrays => Node (EConst (flat_map (evalue ∅) arrays)) [])
      [linear_residual; Integral_init (xconst 1 3) 1 "gauss2"] = Ok c /\
    hd 0 (shape c) = 5 /\
    NoDup (keys (items c)).
Proof.
  eexists. split; [vm_compute; reflexivity|].
  edestruct (concatenate_shape_and_entries (V := list xnum)
               (fun arrays => Node (EConst (flat_map (evalue ∅) arrays)) [])
               [linear_residual; Integral_init (xconst 1 3) 1 "gauss2"])
    as (_ & Hhd & _ & Hnd & _).
  - intros l. apply entrywise_set_order.
  - vm_compute. reflexivity.
  - split; [exact Hhd|exact Hnd].
Defined.

(** The integrals of [u^2 - 4] and of [3 u] on the same domain at [u = 3],
    with rational values. *)
Lemma eval_Integral_add_witness :
  exists c,
    Integral_add (F := Qc) square_residual
      (Integral_init (Node (EScale (Q2Qc 3)) [Argument (Str "u") [2]]) 0 "gauss2") = Ok c /\
    eval (NU := scalar_numeric) c {[Str "u" := [Q2Qc 3]]}
    = vadd (Numeric := scalar_numeric)
        (eval (NU := scalar_numeric) square_residual {[Str "u" := [Q2Qc 3]]})
        (eval (NU := scalar_numeric)
           (Integral_init (Node (EScale (Q2Qc 3)) [Argument (Str "u") [2]]) 0 "gauss2")
           {[Str "u" := [Q2Qc 3]]}).
Proof.
  eexists. split; [vm_compute; reflexivity|].
  apply (eval_Integral_add (NU := scalar_numeric)).
  - exact Qcplus_comm.
  - exact Qcplus_assoc.
  - exact Qcplus_0_l.
  - intros di x y arguments. reflexivity.
  - vm_compute. reflexivity.
Defined.

(** [pseudotime] with the target among the arguments. *)
Lemma pseudotime_solve_no_model_error_witness :
  exists e l,
    solve (pseudotime_next (V := list xnum) "u" decay decay (Some 1%Q) [Some 4%Q] None None
             {[Str "u" := [Some 4%Q]]})
          (Some (1 # 100)) None 3 PStart = (Raises e, l) /\
    ~ is_model_error e.
Proof.
  eexists. eexists. split; [vm_compute; reflexivity|].
  apply (pseudotime_solve_no_model_error (V := list xnum) "u" decay decay (Some 1%Q)
           [Some 4%Q] None None {[Str "u" := [Some 4%Q]]} (Some (1 # 100)) 3 _ []).
  vm_compute. reflexivity.
Defined.

Lemma Qc_exact_sub (x : Qc) : fsub x (fofZ 0) = x.
Proof. cbn. change (Q2Qc (inject_Z 0)) with 0%Qc. ring. Qed.

(** [pseudotime] on [u^2 - 4] over the exact rationals, the first of two
    entries fixed at [5]. *)
Lemma pseudotime_respects_constraints_witness :
  Forall (fun y : list Qc * Qc =>
            forall i, holds_imposed square_constrain [Q2Qc 1; Q2Qc 1] y.1 i)
         (take_yields
            (pseudotime_next (V := list Qc) "u" square_residual
               (Integral_init (Node (EScale (Q2Qc 1)) [Argument (Str "u") [2]]) 0 "gauss2")
               (Q2Qc 1) [Q2Qc 1; Q2Qc 1] None square_constrain ∅)
            3 PStart).
Proof.
  apply (pseudotime_respects_constraints (V := list Qc) "u" square_residual
           (Integral_init (Node (EScale (Q2Qc 1)) [Argument (Str "u") [2]]) 0 "gauss2")
           (Q2Qc 1) [Q2Qc 1; Q2Qc 1] None square_constrain ∅).
  - exact Qc_exact_sub.
  - intros jac rhs cons. apply esolve_length.
  - intros jac rhs cons i v. apply esolve_fixed.
  - reflexivity.
Defined.

(** * The log module *)

Section Strings.

Lemma str_app_cons (x : Ascii.ascii) (a b : string) :
  String x a +:+ b = String x (a +:+ b).
Proof. reflexivity. Qed.

Lemma str_app_assoc (a b c : string) : (a +:+ b) +:+ c = a +:+ (b +:+ c).
Proof. induction a as [|x a IH]; [reflexivity|]. by rewrite !str_app_cons, IH. Qed.

Lemma str_app_nil_r (a : string) : a +:+ EmptyString = a.
Proof. induction a as [|x a IH]; [reflexivity|]. by rewrite str_app_cons, IH. Qed.

Lemma str_length_app (a b : string) :
  String.length (a +:+ b) = String.length a + String.length b.
Proof.
  induction a as [|x a IH]; [reflexivity|]. rewrite str_app_cons. cbn. by rewrite IH.
Qed.

Lemma str_take_app (a b : string) : str_take (String.length a) (a +:+ b) = a.
Proof.
  induction a as [|x a IH]; [by destruct b|]. rewrite str_app_cons. cbn. by rewrite IH.
Qed.

Lemma str_drop_app (a b : string) : str_drop (String.length a) (a +:+ b) = b.
Proof. induction a as [|x a IH]; [reflexivity|]. rewrite str_app_cons. exact IH. Qed.

Lemma concat_snoc (sep : string) (parts : list string) (text : string) :
  String.concat sep (parts ++ [text])
  = foldr (fun c acc => c +:+ sep +:+ acc) text parts.
Proof.
  induction parts as [|p parts IH]; [reflexivity|].
  cbn [foldr]. rewrite <- IH. destruct parts; reflexivity.
Qed.

Lemma foldr_app_str (sep : string) (parts : list string) (text : string) :
  foldr (fun c acc => c +:+ sep +:+ acc) text parts
  = foldr (fun c acc => c +:+ sep +:+ acc) EmptyString parts +:+ text.
Proof.
  induction parts as [|p parts IH]; cbn; [reflexivity|].
  by rewrite IH, !str_app_assoc.
Qed.

Lemma concat_lines (ls : list string) :
  ls <> [] ->
  String.concat newline ls +:+ newline
  = foldr (fun line acc => line +:+ newline +:+ acc) EmptyString ls.
Proof.
  induction ls as [|x ls IH]; [done|]. intros _. destruct ls as [|y ls]; [reflexivity|].
  specialize (IH ltac:(done)).
  change (String.concat newline (x :: y :: ls))
    with (x +:+ newline +:+ String.concat newline (y :: ls)).
  rewrite !str_app_assoc, IH. reflexivity.
Qed.

End Strings.

Section Verbosity.

Lemma elem_of_drop_NoDup {A : Type} (l : list A) (k n : nat) (x : A) :
  NoDup l -> l !! k = Some x -> x ∈ drop n l <-> n <= k.
Proof.
  intros Hnd Hk. split.
  - intros Hin. apply list_elem_of_lookup_1 in Hin as [j Hj].
    rewrite lookup_drop in Hj.
    pose proof (NoDup_lookup _ _ _ _ Hnd Hj Hk). lia.
  - intros Hle. apply (list_elem_of_lookup_2 _ (k - n)).
    rewrite lookup_drop. by replace (n + (k - n)) with k by lia.
Qed.

Lemma LEVELS_NoDup : NoDup LEVELS.
Proof. apply (bool_decide_unpack _). vm_compute. reflexivity. Qed.

(** [write] of [StdoutLog] and of [RichOutputLog] prints the line of a
    level of [LEVELS] exactly when its position is below [verbose]; a
    negative [verbose] counts from the end of [LEVELS], so that [-1]
    silences only "debug", and without the property every level is
    printed. *)
Theorem write_level_threshold
    (_mkstr : StdoutLog -> string -> option string -> string) (verbose : option Z)
    (k : nat) (self : StdoutLog) (level : string) (text : option string) (endl : bool) :
  LEVELS !! k = Some level ->
  write_with _mkstr verbose self level text endl
  = if bool_decide (Z.of_nat k < match verbose with
                                 | Some v => if (v <? 0)%Z then 7 + v else v
                                 | None => 7
                                 end)%Z
    then mkContextLog (_context self)
           (fields self +:+ (if endl then _mkstr self level text +:+ newline
                             else _mkstr self level text))
    else self.
Proof.
  intros Hk. unfold write_with.
  pose proof (lookup_lt_Some _ _ _ Hk) as Hlt. change (length LEVELS) with 7 in *.
  unfold slice_from. change (length LEVELS) with 7.
  erewrite bool_decide_ext; [reflexivity|].
  rewrite (elem_of_drop_NoDup _ _ _ _ LEVELS_NoDup Hk).
  change (Z.of_nat 7) with 7%Z.
  destruct verbose as [v|]; cbn [default from_option]; unfold id;
    [|change (7 <? 0)%Z with false; lia].
  destruct (Z.ltb_spec v 0); lia.
Qed.

(** A level that is not in [LEVELS] is printed whatever [verbose] is. *)
Theorem write_unknown_level
    (_mkstr : StdoutLog -> string -> option string -> string) (verbose : option Z)
    (self : StdoutLog) (level : string) (text : option string) (endl : bool) :
  level ∉ LEVELS ->
  write_with _mkstr verbose self level text endl
  = mkContextLog (_context self)
      (fields self +:+ (if endl then _mkstr self level text +:+ newline
                        else _mkstr self level text)).
Proof.
  intros Hno. unfold write_with. rewrite bool_decide_eq_true_2; [reflexivity|].
  intros Hin. apply Hno. unfold slice_from in Hin.
  eapply list_elem_of_lookup_1 in Hin as [j Hj]. rewrite lookup_drop in Hj.
  eapply list_elem_of_lookup_2, Hj.
Qed.

End Verbosity.

Section RichOutput.

(** The line of [RichOutputLog] is the contexts, each followed by the
    separator, in grey, then the text in the colour of the level, or
    after a reset when the level has no colour: the slice at
    [len(string) - len(text)] separates the text from the contexts. *)
Theorem RichOutputLog_mkstr_split (self : StdoutLog) (level text : string) :
  RichOutputLog_mkstr self level (Some text)
  = escape +:+ "[1;30m"
    +:+ foldr (fun c acc => c +:+ " · " +:+ acc) EmptyString (_context self)
    +:+ match cmap level with
        | None => escape +:+ "[0m" +:+ text
        | Some (colorid, boldid) =>
            escape +:+ "[" +:+ pretty boldid +:+ ";3" +:+ pretty colorid +:+ "m"
              +:+ text +:+ escape +:+ "[0m"
        end.
Proof.
  unfold RichOutputLog_mkstr. rewrite concat_snoc, foldr_app_str.
  set (prefix := foldr _ EmptyString (_context self)).
  rewrite str_length_app, Nat.add_sub, str_take_app, str_drop_app.
  destruct (cmap level) as [[colorid boldid]|]; reflexivity.
Qed.

End RichOutput.

Section Contexts.
Context {E : Type}.

Lemma call_nested_ind (P : call -> Prop) :
  (forall level text, P (Write level text)) ->
  (forall title body, Forall P body -> P (With title body)) ->
  forall c, P c.
Proof.
  intros HW HB. fix IH 1. intros [level text|title body].
  - apply HW.
  - apply HB. induction body as [|c body IHbody]; constructor; auto.
Qed.

Lemma run_With (write : ContextLog E -> string -> option string -> result unit * ContextLog E)
    (title : string) (body : list call) (self : ContextLog E) :
  run write (With title body) self = with_context title (run_block write body) self.
Proof. reflexivity. Qed.

(** A block that leaves the list of contexts as it finds it, by returning
    or by raising, has its outcome passed on by [with_context], which
    leaves the list as it finds it as well. *)
Lemma with_context_restores {A : Type} (title : string)
    (body : ContextLog E -> result A * ContextLog E) (self : ContextLog E) :
  _context (body (_push_context title self)).2 = _context self ++ [title] ->
  with_context title body self
  = ((body (_push_context title self)).1,
     mkContextLog (_context self) (fields (body (_push_context title self)).2)).
Proof.
  intros Hb. unfold with_context, _pop_context.
  destruct (body (_push_context title self)) as [r self']. cbn in *. rewrite Hb.
  destruct (_context self ++ [title]) eqn:Happ; [by destruct (_context self)|].
  rewrite <- Happ, removelast_last. reflexivity.
Qed.

Section Balanced.
Variable write : ContextLog E -> string -> option string -> result unit * ContextLog E.
Hypothesis write_context :
  forall self level text, _context (write self level text).2 = _context self.

Lemma run_context (c : call) :
  forall self, _context (run write c self).2 = _context self.
Proof using write_context.
  induction c as [level text|title body IH] using call_nested_ind; intros self.
  - apply write_context.
  - rewrite run_With, with_context_restores; [reflexivity|].
    change (_context self ++ [title]) with (_context (_push_context title self)).
    generalize (_push_context title self). clear self.
    induction IH as [|c body Hc _ IHbody]; intros self; [reflexivity|].
    cbn [run_block]. specialize (Hc self).
    destruct (run write c self) as [[[]|e] self']; cbn in Hc |- *; [|exact Hc].
    rewrite IHbody. exact Hc.
Qed.

(** Whatever a program writes inside whatever nesting of contexts, and
    whether it returns or a write raises, it leaves the list of contexts
    of the logger as it found it, when [write] does not touch the list. *)
Theorem run_block_context (cs : list call) (self : ContextLog E) :
  _context (run_block write cs self).2 = _context self.
Proof using write_context.
  revert self. induction cs as [|c cs IH]; intros self; [reflexivity|].
  cbn [run_block]. pose proof (run_context c self) as Hc.
  destruct (run write c self) as [[[]|e] self']; cbn in Hc |- *; [|exact Hc].
  rewrite IH. exact Hc.
Qed.

End Balanced.
End Contexts.

Section Capture.

Local Abbreviation stdout_write :=
  (fun (self : StdoutLog) level text => (Ok tt, StdoutLog_write None self level text true)).

Local Abbreviation printed ls :=
  (foldr (fun line acc => line +:+ newline +:+ acc) EmptyString ls).

Local Abbreviation initials ls :=
  (foldr (fun level acc => str_take 1 level +:+ acc) EmptyString ls).

Lemma printed_app (a b : list string) : printed (a ++ b) = printed a +:+ printed b.
Proof.
  induction a as [|x a IH]; [reflexivity|].
  cbn [foldr app]. by rewrite IH, !str_app_assoc.
Qed.

Lemma initials_app (a b : list string) : initials (a ++ b) = initials a +:+ initials b.
Proof.
  induction a as [|x a IH]; [reflexivity|].
  cbn [foldr app]. by rewrite IH, !str_app_assoc.
Qed.

Lemma stdout_write_default (self : StdoutLog) (level : string) (text : option string) :
  StdoutLog_write None self level text true
  = mkContextLog (_context self)
      (fields self +:+ StdoutLog_mkstr self level text +:+ newline).
Proof. reflexivity. Qed.

Lemma mkContextLog_eta {E : Type} (self : ContextLog E) :
  mkContextLog (_context self) (fields self) = self.
Proof. by destruct self. Qed.

Local Abbreviation agree run_out run_cap lvls :=
  (forall (out : StdoutLog) (cap : CaptureLog),
     _context out = _context cap ->
     Forall (fun level => level <> EmptyString) lvls ->
     exists (new : list string),
       run_out out
         = (Ok tt, mkContextLog (_context out) (fields out +:+ printed new)) /\
       run_cap cap
         = (Ok tt, mkContextLog (_context cap)
                     (mkCapture (stream (fields cap) +:+ initials lvls)
                                (lines (fields cap) ++ new)))).

Lemma block_side_by_side (body : list call) :
  Forall (fun c => agree (run stdout_write c) (run CaptureLog_write c) (levels c)) body ->
  agree (run_block stdout_write body) (run_block CaptureLog_write body)
        (flat_map levels body).
Proof.
  induction 1 as [|c body Hc _ IHbody]; intros out cap Hctx Hlev.
  - exists []. cbn [run_block foldr flat_map]. rewrite !str_app_nil_r, app_nil_r.
    destruct out, cap as [? []]. split; reflexivity.
  - cbn [flat_map] in Hlev. apply Forall_app in Hlev as [Hlev1 Hlev2].
    destruct (Hc out cap Hctx Hlev1) as (new1 & Ho1 & Hc1).
    cbn [run_block]. rewrite Ho1, Hc1.
    edestruct IHbody as (new2 & Ho2 & Hc2); [|exact Hlev2|rewrite Ho2, Hc2].
    { cbn. exact Hctx. }
    exists (new1 ++ new2). cbn [_context fields stream lines flat_map].
    rewrite printed_app, initials_app, !str_app_assoc, app_assoc. done.
Qed.

Lemma run_side_by_side (c : call) :
  agree (run stdout_write c) (run CaptureLog_write c) (levels c).
Proof.
  induction c as [level text|title body IH] using call_nested_ind; intros out cap Hctx Hlev.
  - apply Forall_cons in Hlev as [Hlevel _].
    exists [StdoutLog_mkstr out level text]. split.
    + cbn [run]. rewrite stdout_write_default. cbn [foldr].
      by rewrite str_app_nil_r.
    + cbn [run levels foldr]. unfold CaptureLog_write.
      destruct level as [|ch level]; [done|]. cbn [_context fields stream lines str_take].
      unfold StdoutLog_mkstr. rewrite Hctx, str_app_nil_r. reflexivity.
  - rewrite !run_With.
    destruct (block_side_by_side body IH (_push_context title out)
                (_push_context title cap)) as (new & Ho & Hc).
    { cbn. by rewrite Hctx. }
    { exact Hlev. }
    exists new. split.
    + rewrite with_context_restores; rewrite Ho; reflexivity.
    + rewrite with_context_restores; rewrite Hc; reflexivity.
Qed.

(** On a program whose levels are not empty, [CaptureLog] captures the
    lines that [StdoutLog] prints when [verbose] is not set: both return,
    what is printed is [captured] with a newline after it, or nothing
    when no line was captured, and the stream of [CaptureLog] receives
    the first character of the level of every write. *)
Theorem capture_agrees_with_stdout (cs : list call) :
  Forall (fun level => level <> EmptyString) (flat_map levels cs) ->
  exists (out : StdoutLog) (cap : CaptureLog),
    run_block stdout_write cs (mkContextLog [] EmptyString) = (Ok tt, out) /\
    run_block CaptureLog_write cs (mkContextLog [] (mkCapture EmptyString [])) = (Ok tt, cap) /\
    fields out = match lines (fields cap) with
                 | [] => EmptyString
                 | _ :: _ => captured cap +:+ newline
                 end /\
    stream (fields cap) = initials (flat_map levels cs).
Proof.
  intros Hlev.
  destruct (block_side_by_side cs) with (out := mkContextLog [] EmptyString)
    (cap := mkContextLog [] (mkCapture EmptyString [])) as (new & Ho & Hc);
    [apply Forall_forall; intros c _; apply run_side_by_side|reflexivity|exact Hlev|].
  eexists. eexists. split; [exact Ho|]. split; [exact Hc|].
  cbn [_context fields stream lines app]. split; [|reflexivity].
  destruct new as [|line new]; [reflexivity|].
  unfold captured. cbn [fields lines]. rewrite concat_lines by done. reflexivity.
Qed.

End Capture.

(** * [newton] without line search *)

Section NewtonPlain.
Context {F Op V : Type} {SF : Scalars F} {SY : Symbolic F Op} {NU : Numeric F Op V}.

Variables (target : string) (residual : Integral Op) (lhs0 : option (list F))
          (constrain : option (constraint F))
          (minrelax maxrelax rebound : F) (arguments : argmap F).

Local Abbreviation plain_next :=
  (newton_next target residual lhs0 constrain (Some 0) minrelax maxrelax rebound arguments).

Lemma linesearch_plain (fuel : nat) (fr : newton_frame) (dlhs : list F) (irelax : nat)
    (relax relax' : F) (res jac : V) (l : list (logmsg F)) :
  linesearch target residual (Some 0) minrelax maxrelax arguments fuel fr dlhs irelax relax
    = (LsAccept relax' res jac, l) ->
  relax' = relax /\
  flt (fr_resnorm fr) (norm (free (fr_constrain fr) (vec_of res))) = false.
Proof.
  destruct fuel as [|fuel]; [discriminate|]. cbn [linesearch]. unfold ls_body.
  destruct (multieval2 _ _ _) as [[res1 jac1]|]; [|discriminate].
  cbn [reached]. rewrite bool_decide_eq_true_2 by lia.
  destruct (flt _ _) eqn:Hflt; [discriminate|].
  intros Hacc. injection Hacc as <- <- _ _. split; [reflexivity|exact Hflt].
Qed.

Lemma newton_resume_plain (fuel : nat) (fr : newton_frame) (y : list F * F)
    (st : newton_state) (l : list (logmsg F)) :
  plain_next fuel (NLoop fr) = (Yield y st, l) ->
  exists fr', st = NLoop fr' /\ y = (fr_lhs fr', fr_resnorm fr') /\
              flt (fr_resnorm fr) (fr_resnorm fr') = false.
Proof.
  cbn [newton_next]. unfold newton_resume.
  destruct (linesearch _ _ _ _ _ _ _ _ _ _ _) as [[relax res jac| | |] l'] eqn:Hls;
    try discriminate.
  intros Hy. injection Hy as <- <- _. eexists. split; [reflexivity|].
  split; [reflexivity|]. cbn. exact (proj2 (linesearch_plain _ _ _ _ _ _ _ _ _ Hls)).
Qed.

Lemma newton_loop_plain (fuel n : nat) :
  forall (fr : newton_frame) (i : nat) (y y' : list F * F),
  ((fr_lhs fr, fr_resnorm fr) :: take_yields (plain_next fuel) n (NLoop fr)) !! i = Some y ->
  take_yields (plain_next fuel) n (NLoop fr) !! i = Some y' ->
  flt y.2 y'.2 = false.
Proof.
  induction n as [|n IH]; intros fr i y y' Hy Hy'; [discriminate|].
  cbn [take_yields] in Hy, Hy'.
  destruct (plain_next fuel (NLoop fr)) as [[y1 st1| | |] l1] eqn:Hnext; try discriminate.
  destruct (newton_resume_plain _ _ _ _ _ Hnext) as (fr' & -> & -> & Hflt).
  destruct i as [|i].
  - injection Hy as <-. injection Hy' as <-. exact Hflt.
  - exact (IH fr' i y y' Hy Hy').
Qed.

(** With [nrelax = 0] the residual norms of the iterates that [newton]
    yields never increase from one iterate to the next: a step that
    increases the norm ends the iteration instead. *)
Theorem newton_plain_nonincreasing (fuel n i : nat) (y y' : list F * F) :
  take_yields (plain_next fuel) n NStart !! i = Some y ->
  take_yields (plain_next fuel) n NStart !! (Datatypes.S i) = Some y' ->
  flt y.2 y'.2 = false.
Proof.
  destruct n as [|n]; [discriminate|]. cbn [take_yields newton_next].
  unfold newton_start.
  destruct (newton_prelude _ _ _ _ _) as [[[[t l0] m] J]|]; [|discriminate].
  destruct (negb (contains J t)).
  - destruct (newton_linear _ _ _ _ _ _ _) as [y0|]; [|discriminate].
    destruct n; cbn; discriminate.
  - destruct (newton_enter _ _ _ _ _ _ _) as [fr|]; [|discriminate].
    intros Hy Hy'. exact (newton_loop_plain fuel n fr i y y' Hy Hy').
Qed.

End NewtonPlain.

(** The iterates [0] and [1] of the cubic: the step back to [0] would
    double the norm. *)
Lemma newton_plain_nonincreasing_witness :
  take_yields (xnewton cubic_residual [Some 0%Q] None (Some 0) 1) 4 NStart
    = [([Some 0%Q], Some 2%Q); ([Some 1%Q], Some 1%Q)] /\
  flt (Some 2%Q : xnum) (Some 1%Q) = false.
Proof.
  split; [vm_compute; reflexivity|].
  apply (newton_plain_nonincreasing (V := list xnum) "u" cubic_residual (Some [Some 0%Q])
           None xminrelax xmaxrelax xrebound ∅ 1 4 0 ([Some 0%Q], Some 2%Q)
           ([Some 1%Q], Some 1%Q)); vm_compute; reflexivity.
Defined.

(** ** The loggers on examples *)

(** "info" is at position [4]: it is silenced by [verbose = 4]. *)
Lemma write_level_threshold_witness :
  LEVELS !! 4 = Some "info" /\
  StdoutLog_write (Some 4%Z) (mkContextLog ["a"] EmptyString) "info" (Some "x") true
  = mkContextLog ["a"] EmptyString.
Proof.
  split; [reflexivity|].
  exact (write_level_threshold StdoutLog_mkstr (Some 4%Z) 4 (mkContextLog ["a"] EmptyString)
           "info" (Some "x") true eq_refl).
Defined.

(** "trace" is no level: it is printed at [verbose = 0]. *)
Lemma write_unknown_level_witness :
  StdoutLog_write (Some 0%Z) (mkContextLog ["a"] EmptyString) "trace" (Some "x") true
  = mkContextLog ["a"] ("a > x" +:+ newline).
Proof.
  apply (write_unknown_level StdoutLog_mkstr (Some 0%Z) (mkContextLog ["a"] EmptyString)
           "trace" (Some "x") true).
  apply (bool_decide_unpack _). vm_compute. reflexivity.
Defined.

(** A write with an empty level raises in [CaptureLog] inside two
    contexts. *)
Lemma run_block_context_witness :
  (run_block CaptureLog_write
     [With "outer" [Write "info" (Some "x"); With "inner" [Write EmptyString None]]]
     (mkContextLog ["a"] (mkCapture EmptyString []))).1
    = Raise (IndexError "string index out of range") /\
  _context
    (run_block CaptureLog_write
       [With "outer" [Write "info" (Some "x"); With "inner" [Write EmptyString None]]]
       (mkContextLog ["a"] (mkCapture EmptyString []))).2
  = ["a"].
Proof.
  split; [vm_compute; reflexivity|].
  apply (run_block_context CaptureLog_write).
  intros self [|c level] text; reflexivity.
Defined.

(** Three writes, two of them inside a context. *)
Lemma capture_agrees_with_stdout_witness :
  exists (out : StdoutLog) (cap : CaptureLog),
    run_block (fun (self : StdoutLog) level text =>
                 (Ok tt, StdoutLog_write None self level text true))
      [Write "info" (Some "x"); With "t" [Write "user" None; Write "debug" (Some "y")]]
      (mkContextLog [] EmptyString) = (Ok tt, out) /\
    run_block CaptureLog_write
      [Write "info" (Some "x"); With "t" [Write "user" None; Write "debug" (Some "y")]]
      (mkContextLog [] (mkCapture EmptyString [])) = (Ok tt, cap) /\
    fields out = match lines (fields cap) with
                 | [] => EmptyString
                 | _ :: _ => captured cap +:+ newline
                 end /\
    stream (fields cap)
    = foldr (fun level acc => str_take 1 level +:+ acc) EmptyString
        (flat_map levels
           [Write "info" (Some "x"); With "t" [Write "user" None; Write "debug" (Some "y")]]).
Proof.
  apply (capture_agrees_with_stdout
           [Write "info" (Some "x"); With "t" [Write "user" None; Write "debug" (Some "y")]]).
  cbn. repeat (apply Forall_cons; split; [discriminate|]). apply Forall_nil. exact Logic.I.
Defined.
(** * The constraints through [solve], [optimize] and [thetamethod] *)

Section SolveConstraints.
Context {F Op V : Type} {SF : Scalars F} {SY : Symbolic F Op} {NU : Numeric F Op V}.

(** The arithmetic is exact where an update is zero, and the matrix
    backend returns a vector of the length of the constraints that has
    the fixed values in it. *)
Hypothesis exact_update : forall x r : F, fadd x (fmul r (fneg (fofZ 0))) = x.
Hypothesis msolve_length :
  forall (jac : V) rhs cons, length (msolve jac rhs cons) = length cons.
Hypothesis msolve_fixed :
  forall (jac : V) rhs cons i v,
    cons !! i = Some (Some v) -> msolve jac rhs cons !! i = Some v.

Variables (target : string) (residual : Integral Op) (lhs0 : option (list F))
          (constrain : option (constraint F)) (nrelax : option nat)
          (minrelax maxrelax rebound : F) (arguments : argmap F).

Lemma newton_yields_imposed (fuel n : nat) :
  Forall (fun y : list F * F =>
            forall i, holds_imposed constrain
                        (default (zeros_vec (shape residual)) lhs0) y.1 i)
         (take_yields
            (newton_next target residual lhs0 constrain nrelax minrelax maxrelax rebound
               arguments fuel) n NStart).
Proof using exact_update msolve_length msolve_fixed.
  destruct n as [|n]; cbn [take_yields newton_next]; [constructor|].
  unfold newton_start.
  destruct (newton_prelude _ _ _ _ _) as [[[[t l0] m] J]|] eqn:Hp; [|constructor].
  destruct (newton_prelude_inv _ _ _ _ _ _ _ _ _ Hp) as (_ & Hm & Hnorm).
  assert (Hlen : length (default (zeros_vec (shape residual)) lhs0)
                 = numel (shape residual)).
  { unfold newton_prelude in Hp. unfold_bind.
    destruct (bool_decide _); [|discriminate].
    destruct (_find_argument _ _); [|discriminate].
    destruct lhs0 as [l|]; cbn in Hp |- *; [|apply repeat_length].
    case_bool_decide as Hs; [|discriminate]. rewrite <- Hs. cbn. lia. }
  destruct (negb (contains J t)).
  - destruct (newton_linear _ _ _ _ _ _ _) as [[lhs r]|] eqn:Hlin; [|constructor].
    constructor; [|destruct n; cbn; constructor].
    intros i. eapply normalize_imposed; [exact Hnorm|exact Hlen|].
    cbn. eapply newton_linear_ok; [exact msolve_fixed|exact Hlin].
  - destruct (newton_enter _ _ _ _ _ _ _) as [fr|] eqn:Hen; [|constructor].
    destruct (newton_enter_ok _ _ _ _ _ _ _ _ Hen Hm) as (Hfr & Hc).
    constructor.
    + intros i. eapply normalize_imposed; [exact Hnorm|exact Hlen|].
      cbn. rewrite <- Hc. apply Hfr.
    + eapply Forall_impl; [by apply newton_loop_yields|].
      intros y Hy i. eapply normalize_imposed; [exact Hnorm|exact Hlen|].
      rewrite <- Hc. apply Hy.
Qed.

(** What [newton(...).solve(tol)] returns is one of the iterates. *)
Lemma newton_solve_imposed (fuel : nat) (tol : F) (lhs : list F) (l : list (logmsg F)) :
  newton_solve fuel target residual lhs0 constrain nrelax minrelax maxrelax rebound
    arguments tol = (Returns lhs, l) ->
  forall i, holds_imposed constrain (default (zeros_vec (shape residual)) lhs0) lhs i.
Proof using exact_update msolve_length msolve_fixed.
  unfold newton_solve, solve. intros Hsolve.
  match type of Hsolve with
  | context [solve_loop ?nx _ _ _ _ _ _ _] => set (next := nx) in *
  end.
  destruct (next NStart) as [[[lhs1 r1] st1| | |] l1] eqn:Hnext; try discriminate.
  destruct (solve_loop next tol None fuel st1 lhs1 r1 0) as [o l3] eqn:Hloop.
  injection Hsolve as -> _.
  destruct (solve_loop_returns _ _ _ _ _ _ _ _ _ _ Hloop) as (n & r & Hn & _).
  pose proof (newton_yields_imposed fuel (Datatypes.S n)) as Hall.
  fold next in Hall. cbn [take_yields] in Hall. rewrite Hnext in Hall.
  rewrite Forall_lookup in Hall. exact (Hall n _ Hn).
Qed.

End SolveConstraints.

(** ** [optimize] *)

Section OptimizeProps.
Context {F Op V : Type} {SF : Scalars F} {SY : Symbolic F Op} {NU : Numeric F Op V}.

Hypothesis exact_sub : forall x : F, fsub x (fofZ 0) = x.
Hypothesis exact_update : forall x r : F, fadd x (fmul r (fneg (fofZ 0))) = x.
Hypothesis msolve_length :
  forall (jac : V) rhs cons, length (msolve jac rhs cons) = length cons.
Hypothesis msolve_fixed :
  forall (jac : V) rhs cons i v,
    cons !! i = Some (Some v) -> msolve jac rhs cons !! i = Some v.

Lemma zip_orb_false (m : list bool) (n : nat) :
  length m <= n -> zip_with orb m (repeat false n) = m.
Proof.
  revert n. induction m as [|b m IH]; intros [|n] Hn; cbn in *; try lia; [reflexivity..|].
  rewrite IH by lia. by rewrite orb_false_r.
Qed.

Variable scalar_of : V -> F.
Variables (target : string) (functional : Integral Op) (lhs0 : option (list F))
          (constrain : option (constraint F)) (newtontol : option F)
          (arguments : argmap F).

Lemma optimize_enter_inv (fr : optimize_frame) :
  optimize_enter target functional lhs0 constrain arguments = Ok fr ->
  exists (arg : Array Op) (l0 : list F),
    _find_argument target [FIntegral functional] = Ok arg /\
    length (default (zeros_vec (ashape arg)) lhs0) = numel (ashape arg) /\
    normalize (ashape arg) (default (zeros_vec (ashape arg)) lhs0) constrain
      = Ok (l0, of_mask fr) /\
    forall i, of_mask fr !! i = Some true -> of_lhs fr !! i = l0 !! i.
Proof using exact_sub msolve_fixed.
  unfold optimize_enter. unfold_bind. intros He.
  destruct (bool_decide (arguments !! Str target = None)); [|discriminate].
  case_bool_decide as Hscalar; [|discriminate].
  destruct (_find_argument target [FIntegral functional]) as [arg|] eqn:Hfind;
    [|discriminate].
  set (l := default (zeros_vec (ashape arg)) lhs0).
  assert (Hl : length l = numel (ashape arg) /\
               optimize_first_solve target functional constrain arguments arg l = Ok fr).
  { subst l. destruct lhs0 as [l1|]; cbn in He |- *.
    - case_bool_decide as Hs; [|discriminate].
      split; [rewrite <- Hs; cbn; lia|exact He].
    - split; [apply repeat_length|exact He]. }
  clear He. destruct Hl as [Hlen He']. unfold optimize_first_solve in He'. unfold_bind.
  destruct (normalize (ashape arg) l constrain) as [[l0 m]|] eqn:Hnorm; [|discriminate].
  destruct (normalize_lengths _ _ _ _ _ Hnorm Hlen) as [Hl0 Hm].
  destruct (Integral_derivative functional target) as [residual|] eqn:Hres; [|discriminate].
  assert (Hshape : numel (shape residual) = length m).
  { unfold Integral_derivative in Hres. unfold_bind. rewrite Hfind in Hres.
    destruct (bool_decide _); [|discriminate]. injection Hres as <-. cbn [shape].
    apply nil_length_inv in Hscalar. rewrite Hscalar. cbn [app]. lia. }
  destruct (Integral_derivative residual target) as [jacobian|]; [|discriminate].
  destruct (unpack3 _) as [[[f0 res] jac]|]; [|discriminate].
  rewrite Hshape, zip_orb_false in He' by lia.
  destruct (check_mask _ _) as [[]|]; [|discriminate].
  injection He' as <-. cbn. exists arg, l0. split; [reflexivity|].
  split; [exact Hlen|]. split; [exact Hnorm|].
  intros i Hi. pose proof (lookup_lt_Some _ _ _ Hi) as Hlt.
  destruct (lookup_lt_is_Some_2 l0 i) as [x Hx]; [lia|].
  unfold vsub. rewrite lookup_zip_with, Hx. cbn.
  rewrite (msolve_fixed _ _ _ i (fofZ 0)) by (by apply zero_where_fixed_lookup).
  cbn. by rewrite exact_sub.
Qed.

Lemma optimize_finish_returns (fr : optimize_frame (F := F) (Op := Op) (V := V))
    (lhs lhs' : list F) (value : F)
    (l l' : list (optimize_msg F)) :
  optimize_finish fr lhs value l = (Returns lhs', l') -> lhs' = lhs.
Proof.
  unfold optimize_finish. destruct (negb _); [|discriminate]. by intros [= <- _].
Qed.

(** When [optimize] returns, every entry of the optimum that
    [constrain] marks as fixed has its imposed value: the value given in
    a float [constrain], the value of the initial vector under a boolean
    mask, also when the optimum comes out of [newton].  The arithmetic is
    taken exact where an update is zero and the linear solve to respect
    its constraints. *)
Theorem optimize_respects_constraints (fuel : nat) (lhs : list F)
    (l : list (optimize_msg F)) :
  optimize scalar_of target functional lhs0 constrain newtontol arguments fuel
    = (Returns lhs, l) ->
  exists arg : Array Op,
    _find_argument target [FIntegral functional] = Ok arg /\
    forall i, holds_imposed constrain (default (zeros_vec (ashape arg)) lhs0) lhs i.
Proof using exact_sub exact_update msolve_length msolve_fixed.
  unfold optimize. intros Hopt.
  destruct (optimize_enter _ _ _ _ _) as [fr|] eqn:He; [|discriminate].
  destruct (optimize_enter_inv _ He) as (arg & l0 & Hfind & Hlen & Hnorm & Hfix).
  exists arg. split; [exact Hfind|]. intros i.
  eapply normalize_imposed; [exact Hnorm|exact Hlen|]. intros Hi.
  destruct (negb (contains _ _)).
  - apply optimize_finish_returns in Hopt as ->. exact (Hfix i Hi).
  - destruct newtontol as [tol|]; [|discriminate].
    destruct (newton_solve _ _ _ _ _ _ _ _ _ _ _) as [[lhs2| |] l2] eqn:Hsolve;
      try discriminate.
    apply optimize_finish_returns in Hopt as ->.
    rewrite <- (Hfix i Hi).
    exact (newton_solve_imposed exact_update msolve_length msolve_fixed _ _ _ _ _ _ _ _ _
             _ _ _ _ Hsolve i Hi).
Qed.

End OptimizeProps.

(** [optimize] on [u^3 - 12 u] from [(1, 3)] with the first entry fixed
    at [5]: the problem is not linear and the optimum comes out of
    [newton]. *)
Lemma optimize_respects_constraints_witness :
  exists (lhs : list Qc) (l : list (optimize_msg Qc)),
    optimize (V := list Qc) (hd (Q2Qc 0)) "u" cubic_functional (Some [Q2Qc 1; Q2Qc 3])
      square_constrain (Some (Q2Qc (1 # 10))) ∅ 5 = (Returns lhs, l) /\
    exists arg : Array (eop Qc),
      _find_argument "u" [FIntegral cubic_functional] = Ok arg /\
      forall i, holds_imposed square_constrain [Q2Qc 1; Q2Qc 3] lhs i.
Proof.
  eexists. eexists. split; [vm_compute; reflexivity|].
  refine (optimize_respects_constraints (V := list Qc) _ _ _ _
            (hd (Q2Qc 0)) "u" cubic_functional (Some [Q2Qc 1; Q2Qc 3]) square_constrain
            (Some (Q2Qc (1 # 10))) ∅ 5 _ _ _).
  - exact Qc_exact_sub.
  - exact Qc_exact_update.
  - intros jac rhs cons. apply esolve_length.
  - intros jac rhs cons i v. apply esolve_fixed.
  - vm_compute. reflexivity.
Defined.

(** ** [thetamethod] *)

Section ThetamethodConstraints.
Context {F Op V : Type} {SF : Scalars F} {SY : Symbolic F Op} {NU : Numeric F Op V}.

Hypothesis exact_update : forall x r : F, fadd x (fmul r (fneg (fofZ 0))) = x.
Hypothesis msolve_length :
  forall (jac : V) rhs cons, length (msolve jac rhs cons) = length cons.
Hypothesis msolve_fixed :
  forall (jac : V) rhs cons i v,
    cons !! i = Some (Some v) -> msolve jac rhs cons !! i = Some v.

Variables (target : string) (residual inertia : Integral Op) (timestep : F)
          (lhs0 : list F) (theta : F) (target0 : option string)
          (constrain : option (constraint F)) (tol : F) (arguments : argmap F)
          (nrelax : option nat) (minrelax maxrelax rebound : F).

Lemma holds_imposed_trans (a b c : list F) (i : nat) :
  holds_imposed constrain a b i -> holds_imposed constrain b c i ->
  holds_imposed constrain a c i.
Proof.
  destruct constrain as [[mask|cons]|]; cbn; [|auto..].
  intros Hab Hbc Hi. rewrite (Hbc Hi). exact (Hab Hi).
Qed.

Lemma thetamethod_loop_imposed (fuel : nat) (res : Integral Op) (t0 : argname) (n : nat) :
  forall lhs : list F,
  (forall cur i, holds_imposed constrain lhs cur i -> holds_imposed constrain lhs0 cur i) ->
  Forall (fun cur => forall i, holds_imposed constrain lhs0 cur i)
         (thetamethod_take target residual inertia timestep lhs0 theta target0 constrain
            tol arguments nrelax minrelax maxrelax rebound fuel n (TLoop res t0 lhs)).
Proof using exact_update msolve_length msolve_fixed.
  induction n as [|n IH]; intros lhs Hlhs; cbn [thetamethod_take thetamethod_next];
    [constructor|].
  destruct (newton_solve _ _ _ _ _ _ _ _ _ _ _) as [[lhs'| |] l] eqn:Hsolve;
    try constructor.
  - intros i. apply Hlhs.
    exact (newton_solve_imposed exact_update msolve_length msolve_fixed _ _ _ _ _ _ _ _ _
             _ _ _ _ Hsolve i).
  - apply IH. intros cur i Hcur. eapply holds_imposed_trans; [|exact Hcur].
    apply Hlhs.
    exact (newton_solve_imposed exact_update msolve_length msolve_fixed _ _ _ _ _ _ _ _ _
             _ _ _ _ Hsolve i).
Qed.


End ThetamethodConstraints.

